(** * Native linked errors and background spans of sentry-react-native

    A shallow embedding of two integrations of the React Native SDK:

    - [NativeLinkedErrors] (the cause-chain walker and the builders that
      turn JavaScript, Java and Objective-C errors into exception records);
    - [BackgroundSpans] (the app-state listener that records background
      intervals and the wrapper around a transaction's [finish] that drops
      a trailing background span).

    JavaScript strings are [string], numbers that the code uses as integers
    (limits, indices, line numbers, return addresses) and timestamps are [Z],
    [undefined] is [None], objects reachable through references live in a
    store indexed by location, so that cyclic cause chains can be written
    down. *)

From Stdlib Require Import ZArith String Ascii List Lia Bool HexadecimalString.
From Stdlib Require HexadecimalN HexadecimalFacts.
From stdpp Require Import base list gmap strings.
From Equations Require Import Equations.

Local Open Scope Z_scope.
Local Open Scope string_scope.

(** ** The string primitives the parsers rely on *)

Module Js.

(** Length of a string, as the number the engine reports. *)
Definition len (s : string) : Z := Z.of_nat (String.length s).

(** An index argument is clamped to [0, length]. *)
Definition clamp (s : string) (i : Z) : nat :=
  Z.to_nat (Z.min (Z.max i 0) (len s)).

Fixpoint drop (n : nat) (s : string) : string :=
  match n, s with
  | O, _ => s
  | S n', String _ s' => drop n' s'
  | S _, EmptyString => EmptyString
  end.

(** Offset of the first occurrence of [pat] in [s]. *)
Fixpoint find (pat s : string) : option nat :=
  if String.prefix pat s then Some O
  else match s with
       | EmptyString => None
       | String _ s' => option_map S (find pat s')
       end.

(** [s.indexOf(pat, position)]: the first index at or after [position]
    at which [pat] occurs, [-1] when there is none. *)
Definition indexOf (s pat : string) (position : Z) : Z :=
  let p := clamp s position in
  match find pat (drop p s) with
  | Some k => Z.of_nat (p + k)
  | None => -1
  end.

(** [s.substring(start, end)]: both indices are clamped, and swapped when
    [start] is the greater one. *)
Definition substring (s : string) (start end_ : Z) : string :=
  let a := clamp s start in
  let b := clamp s end_ in
  String.substring (Nat.min a b) (Nat.max a b - Nat.min a b) s.

(** White space of the ASCII range: tab, line feed, vertical tab, form feed,
    carriage return and space. *)
Definition isWhiteSpace (c : ascii) : bool :=
  let n := nat_of_ascii c in
  ((9 <=? n) && (n <=? 13) || (n =? 32))%nat.

(** [s.trimEnd()] *)
Fixpoint trimEnd (s : string) : string :=
  match s with
  | EmptyString => EmptyString
  | String c s' =>
      match trimEnd s' with
      | EmptyString => if isWhiteSpace c then EmptyString else String c EmptyString
      | t => String c t
      end
  end.

(** [n.toString(16)] for an integer [n]: lower-case digits, a leading minus
    sign for negative numbers. *)
Definition toString16 (n : Z) : string :=
  let digits (m : Z) := NilZero.string_of_uint (N.to_hex_uint (Z.to_N m)) in
  if (n <? 0)%Z then "-" +:+ digits (- n)%Z else digits n.

Fixpoint repeatChar (c : ascii) (n : nat) : string :=
  match n with
  | O => EmptyString
  | S n' => String c (repeatChar c n')
  end.

(** [s.padStart(width, c)] for a one-character filler. *)
Definition padStart (s : string) (width : nat) (c : ascii) : string :=
  repeatChar c (width - String.length s) +:+ s.

(** Lower-casing of an ASCII letter, for case-insensitive matching. *)
Definition toLower (c : ascii) : ascii :=
  let n := nat_of_ascii c in
  if ((65 <=? n) && (n <=? 90))%nat then ascii_of_nat (n + 32) else c.

Definition isDigit (c : ascii) : bool :=
  let n := nat_of_ascii c in ((48 <=? n) && (n <=? 57))%nat.

(** [s.toLowerCase()] on the ASCII range. *)
Fixpoint lowerCase (s : string) : string :=
  match s with
  | EmptyString => EmptyString
  | String c s' => String (toLower c) (lowerCase s')
  end.

(** Is every character of [s] a decimal digit? *)
Fixpoint allDigits (s : string) : bool :=
  match s with
  | EmptyString => true
  | String c s' => isDigit c && allDigits s'
  end.

(** Does the character [c] occur in [s]? *)
Fixpoint hasChar (c : ascii) (s : string) : bool :=
  match s with
  | EmptyString => false
  | String d s' => Ascii.eqb c d || hasChar c s'
  end.

(** [s.includes(pat)] *)
Definition includes (s pat : string) : bool :=
  match find pat s with Some _ => true | None => false end.

(** The number that a string of lower-case hexadecimal digits denotes, as
    [parseInt(s, 16)] reads it back; [None] for any other string. *)
Definition parseHex (s : string) : option Z :=
  option_map (fun d => Z.of_N (N.of_hex_uint d)) (NilEmpty.uint_of_string s).

End Js.

(** ** NativeLinkedErrors: data model *)

Module NativeLinkedErrors.

Definition DEFAULT_KEY : string := "cause".
Definition DEFAULT_LIMIT : Z := 5.

(** [Partial<LinkedErrorsOptions>]: either field may be left out. *)
Record LinkedErrorsOptions := {
  key : option string;
  limit : option Z;
}.

(** Locations of the objects that are instances of [Error]. *)
Abbreviation loc := nat.

(** Values a property can hold, as far as the walker tells them apart. *)
Inductive JsValue :=
| VUndefined
| VString (s : string)
| VNumber (n : Z)
| VRef (l : loc)      (* a reference to an object of the store *)
| VObject.            (* any other object: not an instance of Error *)

(** The [message] of an error: usually a string; issue 1949 of
    sentry-javascript reports event objects there, whose [error.message]
    may hold the text ([MsgObject None]: no [error] property). *)
Inductive Message :=
| MsgUndefined
| MsgString (s : string)
| MsgObject (error_message : option JsValue).

Record StackElement := {
  className : string;
  fileName : string;
  methodName : string;
  lineNumber : Z;
}.

Record StackFrame := {
  platform : option string;
  module : option string;
  filename : option string;
  lineno : option Z;
  function : option string;
  package : option string;
  instruction_addr : option string;
}.

Record Stacktrace := { frames : list StackFrame }.

(** An exception record; [stacktrace = None] is a record without that
    property. [value] is whatever the builders put there: the typed fields
    of a native error, or the result of [extractMessage]. *)
Record Exception := {
  type : option string;
  value : Message;
  stacktrace : option Stacktrace;
}.

(** An instance of [Error] with the properties the integration reads by
    name; [props] holds every other property, the cause links among them.
    A field that is [None] is a property the object does not have. *)
Record ExtendedError := {
  name : option string;
  message : Message;
  stack : option string;
  ex_stacktrace : option string;       (* the [stacktrace] property (Opera) *)
  framesToPop : option Z;
  stackElements : option (list StackElement);
  stackSymbols : option (list string);
  stackReturnAddresses : option (list Z);
  props : gmap string JsValue;
}.

(** The store: which locations hold instances of [Error]. *)
Abbreviation Store := (gmap nat ExtendedError).

Definition ofString (o : option string) : JsValue :=
  match o with Some s => VString s | None => VUndefined end.

Definition ofArray {A} (o : option (list A)) : JsValue :=
  match o with Some _ => VObject | None => VUndefined end.

(** [error[key]] *)
Definition getProp (error : ExtendedError) (key : string) : JsValue :=
  if String.eqb key "name" then ofString (name error)
  else if String.eqb key "message" then
    match message error with
    | MsgUndefined => VUndefined
    | MsgString s => VString s
    | MsgObject _ => VObject
    end
  else if String.eqb key "stack" then ofString (stack error)
  else if String.eqb key "stacktrace" then ofString (ex_stacktrace error)
  else if String.eqb key "framesToPop" then
    match framesToPop error with Some n => VNumber n | None => VUndefined end
  else if String.eqb key "stackElements" then ofArray (stackElements error)
  else if String.eqb key "stackSymbols" then ofArray (stackSymbols error)
  else if String.eqb key "stackReturnAddresses" then ofArray (stackReturnAddresses error)
  else default VUndefined (props error !! key).

(** The object behind a value that [isInstanceOf(v, Error)] accepts. *)
Definition asError (h : Store) (v : JsValue) : option ExtendedError :=
  match v with
  | VRef l => h !! l
  | _ => None
  end.

Definition isInstanceOf (h : Store) (v : JsValue) : bool :=
  match asError h v with Some _ => true | None => false end.

(** The stack parser of the client: a raw stack and the number of frames to
    skip give the frames; [None] is a parser that throws. *)
Abbreviation StackParser := (string -> Z -> option (list StackFrame)).

Record EventException := { values : option (list Exception) }.

(** An event: its exception data and the rest of its properties. *)
Record Event := {
  exception : option EventException;
  other : gmap string JsValue;
}.

Record EventHint := { originalException : JsValue }.

(** ** The builders *)

Definition emptyFrame : StackFrame :=
  {| platform := None; module := None; filename := None; lineno := None;
     function := None; package := None; instruction_addr := None |}.

Definition javaFrame (stackElement : StackElement) : StackFrame :=
  {| platform := Some "java";
     module := Some (className stackElement);
     filename := Some (fileName stackElement);
     lineno := Some (lineNumber stackElement);
     function := Some (methodName stackElement);
     package := None;
     instruction_addr := None |}.

(** The argument object is given by its three properties. *)
Definition exceptionFromJavaStackElements
    (name : option string) (message : Message)
    (stackElements : list StackElement) : Exception :=
  {| type := name;
     value := message;
     stacktrace := Some {| frames := map javaFrame stackElements |} |}.

Definition appleSymbolFrame (stackSymbol : string) : StackFrame :=
  let addrStartIndex := Js.indexOf stackSymbol " 0x" 0 + 1 in
  let addrEndIndex := Js.indexOf stackSymbol " " addrStartIndex in
  let pkg := Js.trimEnd (Js.substring stackSymbol 5 addrStartIndex) in
  let addr := Js.substring stackSymbol (addrStartIndex + 2) (addrEndIndex - 1) in
  let functionEndIndex := Js.indexOf stackSymbol " + " addrEndIndex in
  let func := Js.substring stackSymbol (addrEndIndex + 1) functionEndIndex in
  {| platform := Some "cocoa";
     module := None; filename := None; lineno := None;
     function := Some func;
     package := Some pkg;
     instruction_addr := Some addr |}.

Definition exceptionFromAppleStackSymbols
    (name : option string) (message : Message)
    (stackSymbols : list string) : Exception :=
  {| type := name;
     value := message;
     stacktrace := Some {| frames := map appleSymbolFrame stackSymbols |} |}.

Definition appleAddressFrame (returnAddress : Z) : StackFrame :=
  {| platform := Some "cocoa";
     module := None; filename := None; lineno := None;
     function := None; package := None;
     instruction_addr := Some (Js.padStart (Js.toString16 returnAddress) 16 "0") |}.

Definition exceptionFromAppleStackReturnAddresses
    (name : option string) (message : Message)
    (stackReturnAddresses : list Z) : Exception :=
  {| type := name;
     value := message;
     stacktrace := Some {| frames := map appleAddressFrame stackReturnAddresses |} |}.

(** *** Errors of the JavaScript side *)

(** [/Minified React error #\d+;/i]: the literal part, compared without
    regard to case. *)
Definition reactMinifiedLiteral : string := "minified react error #".

Fixpoint prefixNoCase (pat s : string) : bool :=
  match pat, s with
  | EmptyString, _ => true
  | String p pat', String c s' =>
      Ascii.eqb p (Js.toLower c) && prefixNoCase pat' s'
  | String _ _, EmptyString => false
  end.

Fixpoint skipDigits (s : string) : string :=
  match s with
  | String c s' => if Js.isDigit c then skipDigits s' else s
  | EmptyString => s
  end.

(** Does the pattern match at the start of [s]: the literal, one digit or
    more, a semicolon. *)
Definition reactMinifiedHere (s : string) : bool :=
  prefixNoCase reactMinifiedLiteral s &&
  match Js.drop (String.length reactMinifiedLiteral) s with
  | String c rest =>
      Js.isDigit c &&
      match skipDigits rest with
      | String d _ => Ascii.eqb d ";"
      | EmptyString => false
      end
  | EmptyString => false
  end.

(** [reactMinifiedRegexp.test(s)]: a match anywhere in [s]. *)
Fixpoint reactMinifiedRegexp_test (s : string) : bool :=
  reactMinifiedHere s ||
  match s with
  | String _ s' => reactMinifiedRegexp_test s'
  | EmptyString => false
  end.

(** The string a message is turned into when a string is asked for. *)
Definition messageToString (m : Message) : string :=
  match m with
  | MsgUndefined => "undefined"
  | MsgString s => s
  | MsgObject _ => "[object Object]"
  end.

Definition getPopSize (ex : ExtendedError) : Z :=
  match framesToPop ex with
  | Some n => n
  | None =>
      if reactMinifiedRegexp_test (messageToString (message ex)) then 1 else 0
  end.

(** [a || b] on a string that may be undefined: the empty string is falsy. *)
Definition truthyString (o : option string) : option string :=
  match o with
  | Some s => if String.eqb s "" then None else Some s
  | None => None
  end.

(** Parses stack frames from an error; a parser that throws leaves none. *)
Definition parseStackFrames (stackParser : StackParser) (ex : ExtendedError)
    : list StackFrame :=
  let stacktrace :=
    match truthyString (ex_stacktrace ex) with
    | Some s => s
    | None => match truthyString (stack ex) with
              | Some s => s
              | None => ""
              end
    end in
  let popSize := getPopSize ex in
  match stackParser stacktrace popSize with
  | Some frames => frames
  | None => []
  end.

(** [!message] *)
Definition messageFalsy (m : Message) : bool :=
  match m with
  | MsgUndefined => true
  | MsgString s => String.eqb s ""
  | MsgObject _ => false
  end.

Definition extractMessage (ex : ExtendedError) : Message :=
  let message := message ex in
  if messageFalsy message then MsgString "No error message"
  else match message with
       | MsgObject (Some (VString inner)) => MsgString inner
       | _ => message
       end.

Definition isEmptyString (m : Message) : bool :=
  match m with
  | MsgString s => String.eqb s ""
  | _ => false
  end.

(** This function creates an exception from a JavaScript Error. *)
Definition exceptionFromError (stackParser : StackParser) (ex : ExtendedError)
    : Exception :=
  let frames := parseStackFrames stackParser ex in
  let exception := {| type := name ex; value := extractMessage ex; stacktrace := None |} in
  let exception :=
    if (0 <? Z.of_nat (length frames))%Z
    then {| type := type exception; value := value exception;
            stacktrace := Some {| frames := frames |} |}
    else exception in
  let exception :=
    match type exception with
    | None =>
        if isEmptyString (value exception)
        then {| type := type exception;
                value := MsgString "Unrecoverable error caught";
                stacktrace := stacktrace exception |}
        else exception
    | Some _ => exception
    end in
  exception.

(** ** The integration *)

Record Integration := {
  _key : string;
  _limit : Z;
}.

(** [options.key || DEFAULT_KEY], [options.limit || DEFAULT_LIMIT]: an
    option left out, an empty key and a zero limit all give the default. *)
Definition constructor (options : LinkedErrorsOptions) : Integration :=
  {| _key := match truthyString (key options) with
             | Some k => k
             | None => DEFAULT_KEY
             end;
     _limit := match limit options with
               | Some l => if (l =? 0)%Z then DEFAULT_LIMIT else l
               | None => DEFAULT_LIMIT
               end |}.

(** The record for a linked error, by the shape of the object: the first
    of [stackElements], [stackSymbols], [stackReturnAddresses] that the
    object has decides, a JavaScript error otherwise. *)
Definition linkedException (parser : StackParser) (linkedError : ExtendedError)
    : Exception :=
  match stackElements linkedError with
  | Some els =>
      exceptionFromJavaStackElements (name linkedError) (message linkedError) els
  | None =>
  match stackSymbols linkedError with
  | Some syms =>
      exceptionFromAppleStackSymbols (name linkedError) (message linkedError) syms
  | None =>
  match stackReturnAddresses linkedError with
  | Some addrs =>
      exceptionFromAppleStackReturnAddresses (name linkedError) (message linkedError) addrs
  | None => exceptionFromError parser linkedError
  end end end.

(** The walk along [error[key]]. It returns [stack] when [error[key]] is not
    an instance of [Error] or when [stack.length + 1 >= limit]; it calls
    itself on [error[key]] with one more record in front otherwise. The
    distance of [stack.length] to [limit] shrinks with every call, which is
    why the recursion is well founded whatever the store looks like. *)
Equations? _walkErrorTree (parser : StackParser) (limit : Z) (h : Store)
    (error : ExtendedError) (key : string) (stack : list Exception)
    : list Exception
    by wf (Z.to_nat (limit - Z.of_nat (length stack))) lt :=
  _walkErrorTree parser limit h error key stack
    with asError h (getProp error key) => {
    | None => stack
    | Some linkedError with Z_ge_dec (Z.of_nat (length stack) + 1) limit => {
        | left _ => stack
        | right _ =>
            _walkErrorTree parser limit h linkedError key
              (linkedException parser linkedError :: stack) } }.
Proof. simpl length. lia. Qed.

Definition _handler (parser : StackParser) (key : string) (limit : Z)
    (h : Store) (event : Event) (hint : option EventHint) : Event :=
  match exception event with
  | None => event
  | Some ex =>
      match values ex with
      | None => event
      | Some vals =>
          match hint with
          | None => event
          | Some hnt =>
              match asError h (originalException hnt) with
              | None => event
              | Some original =>
                  let linkedErrors := _walkErrorTree parser limit h original key [] in
                  {| exception := Some {| values := Some (linkedErrors ++ vals)%list |};
                     other := other event |}
              end
          end
      end
  end.

(** The client, as far as the integration looks at it. *)
Record Client := { stackParser : string -> Z -> option (list StackFrame) }.

(** The event processor that [setupOnce] registers: [self] is what the hub
    answers for this integration when an event comes by. *)
Definition eventProcessor (client : Client) (self : option Integration)
    (h : Store) (event : Event) (hint : option EventHint) : Event :=
  match self with
  | Some self => _handler (stackParser client) (_key self) (_limit self) h event hint
  | None => event
  end.

(** ** Cause chains *)

(** [cause_chain h key error cs]: [cs] lists the instances of [Error] that
    follow [error] along [key], nearest cause first, up to the first value
    that is not an instance of [Error]. *)
Inductive cause_chain (h : Store) (key : string)
    : ExtendedError -> list ExtendedError -> Prop :=
| chain_end error :
    asError h (getProp error key) = None ->
    cause_chain h key error []
| chain_link error cause cs :
    asError h (getProp error key) = Some cause ->
    cause_chain h key cause cs ->
    cause_chain h key error (cause :: cs).

(** The first [n] causes of [error], nearest first; fewer when the chain
    ends before. Defined on every store, cyclic ones included. *)
Fixpoint causes (h : Store) (key : string) (n : nat) (error : ExtendedError)
    : list ExtendedError :=
  match n with
  | O => []
  | S n' =>
      match asError h (getProp error key) with
      | Some cause => cause :: causes h key n' cause
      | None => []
      end
  end.

(** How many records the walk can still add below a stack of [len]. *)
Definition room (limit : Z) (len : nat) : nat :=
  Z.to_nat (limit - 1 - Z.of_nat len).

(** The walk with a bound on the number of invocations, the first one
    included: [None] when that many invocations do not reach a [return]
    that ends the recursion. *)
Fixpoint walkWithin (calls : nat) (parser : StackParser) (limit : Z) (h : Store)
    (error : ExtendedError) (key : string) (stack : list Exception)
    : option (list Exception) :=
  match calls with
  | O => None
  | S calls' =>
      match asError h (getProp error key) with
      | None => Some stack
      | Some linkedError =>
          if Z_ge_dec (Z.of_nat (length stack) + 1) limit then Some stack
          else walkWithin calls' parser limit h linkedError key
                 (linkedException parser linkedError :: stack)
      end
  end.

(** ** Sample objects *)

(** A JavaScript error with a [cause] property and nothing else beside
    name and message. *)
Definition jsError (name : option string) (message : Message) (cause : JsValue)
    : ExtendedError :=
  {| name := name; message := message; stack := None; ex_stacktrace := None;
     framesToPop := None; stackElements := None; stackSymbols := None;
     stackReturnAddresses := None; props := {[ "cause" := cause ]} |}.

(** A parser that finds no frame. *)
Definition noFrames : string -> Z -> option (list StackFrame) := fun _ _ => Some [].

Definition leafError : ExtendedError :=
  jsError (Some "TypeError") (MsgString "socket closed") VUndefined.

Definition javaError : ExtendedError :=
  {| name := Some "java.io.IOException"; message := MsgString "read failed";
     stack := None; ex_stacktrace := None; framesToPop := None;
     stackElements := Some [];
     stackSymbols := None; stackReturnAddresses := None;
     props := {[ "cause" := VRef 2%nat ]} |}.

Definition rootError : ExtendedError :=
  jsError (Some "Error") (MsgString "request failed") (VRef 1%nat).

(** root -> java -> leaf *)
Definition sampleStore : gmap nat ExtendedError :=
  {[ 0%nat := rootError; 1%nat := javaError; 2%nat := leafError ]}.

(** An error that is its own cause. *)
Definition selfError : ExtendedError :=
  jsError (Some "Error") (MsgString "loop") (VRef 0%nat).

Definition selfStore : gmap nat ExtendedError := {[ 0%nat := selfError ]}.

(** An error with an empty message and no name. *)
Definition blankError : ExtendedError := jsError None (MsgString "") VUndefined.

Definition sampleEvent : Event :=
  {| exception := None; other := {[ "event_id" := VString "e1" ]} |}.

(** The symbol line of the specification's example. *)
Definition sampleSymbol : string :=
  "0   MyApp   0x0000000102345678 -[MyApp foo] + 40".

(** [setupOnce]: without a client nothing is registered; with one, the
    processor, which asks the hub for the integration at every event. *)
Definition setupOnce (client : option Client)
    : option (option Integration -> Store -> Event -> option EventHint -> Event) :=
  match client with
  | None => None
  | Some client => Some (eventProcessor client)
  end.

(** Is the error a native one for the walker: has it one of the three
    stack properties? *)
Definition isNative (e : ExtendedError) : bool :=
  match stackElements e, stackSymbols e, stackReturnAddresses e with
  | None, None, None => false
  | _, _, _ => true
  end.

(** A parser that always throws. *)
Definition throwingParser : string -> Z -> option (list StackFrame) := fun _ _ => None.

(** An event that carries the record of the root error. *)
Definition capturedEvent : Event :=
  {| exception := Some {| values := Some [exceptionFromError noFrames rootError] |};
     other := {[ "event_id" := VString "e2" ]} |}.

Definition rootHint : EventHint := {| originalException := VRef 0%nat |}.

(** An event for the leaf error, which has no cause. *)
Definition leafEvent : Event :=
  {| exception := Some {| values := Some [exceptionFromError noFrames leafError] |};
     other := ∅ |}.

Definition leafHint : EventHint := {| originalException := VRef 2%nat |}.

(** A throwable that carries both Java elements and Apple symbols, with an
    empty message. *)
Definition mixedError : ExtendedError :=
  {| name := Some "java.lang.IllegalStateException"; message := MsgString "";
     stack := Some "ignored"; ex_stacktrace := None; framesToPop := None;
     stackElements :=
       Some [ {| className := "A"; fileName := "A.java";
                 methodName := "m"; lineNumber := 10 |} ];
     stackSymbols := Some [sampleSymbol];
     stackReturnAddresses := None;
     props := ∅ |}.

(** A minified React error. *)
Definition reactError : ExtendedError :=
  jsError (Some "Error")
    (MsgString "Uncaught: MINIFIED React error #31; visit the docs") VUndefined.

(** The strings that [/Minified React error #\d+;/i] accepts: somewhere in
    them the literal in any letter case, one digit or more, a semicolon. *)
Definition reactMinifiedShape (s : string) : Prop :=
  exists pre lit d ds rest,
    s = pre +:+ lit +:+ String d ds +:+ String ";" rest /\
    Js.lowerCase lit = "minified react error #" /\
    Js.isDigit d = true /\ Js.allDigits ds = true.

End NativeLinkedErrors.

(** ** BackgroundSpans: data model and operations *)

Module BackgroundSpans.

Definition BACKGROUND_SPAN_OP : string := "app.background".

(** A span of the recorder. Timestamps are numbers of the clock, compared
    with [>] only; an open span has no [endTimestamp]. *)
Record Span := {
  op : option string;
  description : option string;
  startTimestamp : Z;
  endTimestamp : option Z;
}.

Record SpanRecorder := { spans : list Span }.

(** What the [finish] slot of a transaction holds: the method of the SDK,
    or the wrapper of this integration around what the slot held before. *)
Inductive FinishImpl :=
| Original
| Wrapped (originalFinish : FinishImpl).

(** A transaction: whether it is an instance of the SDK's span class, its
    recorder if it has one, the [__backgroundSpan] mark and the [finish]
    slot. *)
Record Transaction := {
  spanId : string;
  isSpanClass : bool;
  spanRecorder : option SpanRecorder;
  __backgroundSpan : bool;
  finish : FinishImpl;
}.

Inductive AppStateStatus := active | background | inactive | unknown | extension.

(** The integration's own state; [None] is [undefined]. *)
Record Integration := { _currentBackgroundStartTimestamp : option Z }.

(** A number that may be undefined, as a condition: zero is falsy. *)
Definition truthyNumber (o : option Z) : option Z :=
  match o with
  | Some n => if (n =? 0)%Z then None else Some n
  | None => None
  end.

(** *** The wrapper around [finish] *)

(** One turn of the loop body at index [i]; the pair stands for
    [trailingSpanIndex] and [trailingSpan], which are assigned together. *)
Definition scanStep (i : nat) (span : Span) (trailing : option (nat * Span))
    : option (nat * Span) :=
  match trailing with
  | Some (_, trailingSpan) =>
      match endTimestamp span, endTimestamp trailingSpan with
      | Some e, Some te => if (te <? e)%Z then Some (i, span) else trailing
      | _, _ => trailing
      end
  | None => Some (i, span)
  end.

(** [for (let i = n - 1; i >= 0; i--)] *)
Fixpoint scanFrom (spans : list Span) (n : nat) (trailing : option (nat * Span))
    : option (nat * Span) :=
  match n with
  | O => trailing
  | S i =>
      match spans !! i with
      | Some span => scanFrom spans i (scanStep i span trailing)
      | None => scanFrom spans i trailing
      end
  end.

Definition findTrailing (spans : list Span) : option (nat * Span) :=
  scanFrom spans (length spans) None.

(** The child list after the wrapper looked at it: [spans.splice(i, 1)] when
    the trailing span is a background span. *)
Definition pruneTrailing (spans : list Span) : list Span :=
  match findTrailing spans with
  | Some (trailingSpanIndex, trailingSpan) =>
      if decide (op trailingSpan = Some BACKGROUND_SPAN_OP)
      then delete trailingSpanIndex spans
      else spans
  | None => spans
  end.

(** The transaction as the wrapper hands it on: the child list replaced and
    the mark deleted. *)
Definition handedOn (tx : Transaction) (spans' : list Span) : Transaction :=
  {| spanId := spanId tx;
     isSpanClass := isSpanClass tx;
     spanRecorder := Some {| spans := spans' |};
     __backgroundSpan := false;
     finish := finish tx |}.

(** A call of a [finish]: what the call did, and the value it returned
    ([None] is [undefined]; the SDK returns the id of the event). *)
Record Finished (Effect : Type) := {
  effect : Effect;
  returned : option string;
}.

Arguments effect {Effect} _.
Arguments returned {Effect} _.

Section Finish.

(** What finishing a transaction does, and the [finish] that the wrapper
    was put around. *)
Context {Effect : Type}.
Variable originalFinish : option Z -> Transaction -> Finished Effect.

(** The two early exits return what the original [finish] returns; after
    the pruning the original [finish] is called and its value dropped. *)
Definition beforeTransactionFinish (endTimestamp : option Z) (tx : Transaction)
    : Finished Effect :=
  if negb (isSpanClass tx) then originalFinish endTimestamp tx
  else
    match spanRecorder tx with
    | None => originalFinish endTimestamp tx
    | Some recorder =>
        {| effect :=
             effect (originalFinish endTimestamp
                       (handedOn tx (pruneTrailing (spans recorder))));
           returned := None |}
    end.

End Finish.

(** Calling what the [finish] slot holds; [sdkFinish] is the method of the
    SDK itself. *)
Fixpoint callFinish {Effect : Type}
    (sdkFinish : option Z -> Transaction -> Finished Effect)
    (f : FinishImpl) (endTimestamp : option Z) (tx : Transaction) : Finished Effect :=
  match f with
  | Original => sdkFinish endTimestamp tx
  | Wrapped inner =>
      beforeTransactionFinish (callFinish sdkFinish inner) endTimestamp tx
  end.

(** *** The listener *)

Section Listener.

(** [tx.startChild(context).finish(endTimestamp)] belongs to the SDK: it
    is given the start, the end, the description and the operation. *)
Variable startFinishedChild : Z -> Z -> string -> string -> Transaction -> Transaction.

Definition _createBackgroundSpan (startTimestamp endTimestamp : Z)
    (tx : option Transaction) : option Transaction :=
  match tx with
  | None => None
  | Some tx =>
      let tx := startFinishedChild startTimestamp endTimestamp
                  "App in background" BACKGROUND_SPAN_OP tx in
      if __backgroundSpan tx then Some tx
      else Some {| spanId := spanId tx;
                   isSpanClass := isSpanClass tx;
                   spanRecorder := spanRecorder tx;
                   __backgroundSpan := true;
                   finish := Wrapped (finish tx) |}
  end.

(** The listener for ["change"]: [now] is what [timestampInSeconds()]
    answers during this call, [tx] the transaction of the scope. *)
Definition onChange (now : Z) (state : AppStateStatus)
    (self : Integration) (tx : option Transaction)
    : Integration * option Transaction :=
  match state, truthyNumber (_currentBackgroundStartTimestamp self) with
  | active, Some start =>
      let endTimestamp := now in
      ({| _currentBackgroundStartTimestamp := None |},
       _createBackgroundSpan start endTimestamp tx)
  | background, None =>
      ({| _currentBackgroundStartTimestamp := Some now |}, tx)
  | _, _ => (self, tx)
  end.

(** The states the integration can be in: the clock counts seconds since
    the epoch, so every reading is positive. *)
Inductive reachable : Integration -> Prop :=
| reachable_init : reachable {| _currentBackgroundStartTimestamp := None |}
| reachable_change self now state tx :
    reachable self -> (0 < now)%Z ->
    reachable (fst (onChange now state self tx)).

End Listener.

(** ** The trailing span, and sample transactions *)

(** [latestEnded spans n i s m]: among the spans at index [n] and above, the
    span [s] at index [i] ends last, at [m], and is the one of greatest
    index to end then. *)
Definition latestEnded (spans : list Span) (n i : nat) (s : Span) (m : Z) : Prop :=
  spans !! i = Some s /\ endTimestamp s = Some m /\ (n <= i)%nat /\
  forall j s' t', (n <= j)%nat -> spans !! j = Some s' -> endTimestamp s' = Some t' ->
    (t' <= m)%Z /\ (t' = m -> (j <= i)%nat).

Definition endedSpan (operation : string) (start end_ : Z) : Span :=
  {| op := Some operation; description := None;
     startTimestamp := start; endTimestamp := Some end_ |}.

Definition openSpan (operation : string) (start : Z) : Span :=
  {| op := Some operation; description := None;
     startTimestamp := start; endTimestamp := None |}.

(** An ended request, then a background span that ends last. *)
Definition sampleSpans : list Span :=
  [ endedSpan "http.client" 1 3; endedSpan BACKGROUND_SPAN_OP 4 9 ].

(** Three ended spans, the last two ending together. *)
Definition tiedSpans : list Span :=
  [ endedSpan BACKGROUND_SPAN_OP 1 5; endedSpan "http.client" 2 7;
    endedSpan "db.query" 3 7 ].

Definition sampleTransaction : Transaction :=
  {| spanId := "a1"; isSpanClass := true;
     spanRecorder := Some {| spans := sampleSpans |};
     __backgroundSpan := true; finish := Wrapped Original |}.

(** A child that the SDK adds to the recorder, when there is one. *)
Definition addFinishedChild (start end_ : Z) (description operation : string)
    (tx : Transaction) : Transaction :=
  {| spanId := spanId tx; isSpanClass := isSpanClass tx;
     spanRecorder :=
       match spanRecorder tx with
       | Some recorder =>
           Some {| spans := spans recorder ++
                     [ {| op := Some operation; description := Some description;
                          startTimestamp := start; endTimestamp := Some end_ |} ] |}
       | None => None
       end;
     __backgroundSpan := __backgroundSpan tx; finish := finish tx |}.

(** ** Runs of the listener *)

(** The platform module, as far as [setupOnce] tests it. *)
Record AppStateModule := {
  isAvailable : bool;
  hasAddEventListener : bool;
}.

(** [setupOnce]: the listener that gets registered, none (and a warning)
    when the module is not available or cannot register listeners. *)
Definition setupOnce
    (startFinishedChild : Z -> Z -> string -> string -> Transaction -> Transaction)
    (appState : AppStateModule)
    : option (Z -> AppStateStatus -> Integration -> option Transaction
              -> Integration * option Transaction) :=
  if negb (isAvailable appState) || negb (hasAddEventListener appState)
  then None
  else Some (onChange startFinishedChild).

(** A run of the listener over change events, each with the reading of the
    clock at its time, while the scope keeps the same transaction. *)
Fixpoint runEvents
    (startFinishedChild : Z -> Z -> string -> string -> Transaction -> Transaction)
    (events : list (Z * AppStateStatus))
    (self : Integration) (tx : option Transaction)
    : Integration * option Transaction :=
  match events with
  | [] => (self, tx)
  | (now, state) :: rest =>
      let '(self', tx') := onChange startFinishedChild now state self tx in
      runEvents startFinishedChild rest self' tx'
  end.

(** The slot after [n] wrappers were put around the method of the SDK. *)
Fixpoint wrappedTimes (n : nat) : FinishImpl :=
  match n with
  | O => Original
  | S n' => Wrapped (wrappedTimes n')
  end.

(** The state of the [finish] slot relative to what it held at first:
    untouched and unmarked, or wrapped once and marked. *)
Definition wrappedAtMostOnce (slot : FinishImpl) (tx : Transaction) : Prop :=
  (__backgroundSpan tx = false /\ finish tx = slot) \/
  (__backgroundSpan tx = true /\ finish tx = Wrapped slot).

(** A transaction that no background span was added to yet. *)
Definition freshTransaction : Transaction :=
  {| spanId := "b2"; isSpanClass := true;
     spanRecorder := Some {| spans := [endedSpan "http.client" 1 3] |};
     __backgroundSpan := false; finish := Original |}.

(** Two background spans at the end, after a request. *)
Definition doubleTrailing : list Span :=
  [ endedSpan "http.client" 1 3; endedSpan BACKGROUND_SPAN_OP 4 6;
    endedSpan BACKGROUND_SPAN_OP 7 9 ].

(** A background span that ended, then a span that is still open. *)
Definition openLast : list Span :=
  [ endedSpan BACKGROUND_SPAN_OP 1 5; openSpan "ui.load" 2 ].

(** A marked transaction whose last span is still open. *)
Definition openLastTransaction : Transaction :=
  {| spanId := "e5"; isSpanClass := true;
     spanRecorder := Some {| spans := openLast |};
     __backgroundSpan := true; finish := Wrapped Original |}.

(** A [finish] of the SDK for the samples: what it does is told by the
    transaction it gets, and it returns an event id. *)
Definition recordingFinish (_ : option Z) (tx : Transaction) : Finished Transaction :=
  {| effect := tx; returned := Some "event-1" |}.

End BackgroundSpans.

(** * Properties of the cause-chain walker *)

Module NativeLinkedErrorsFacts.

Import NativeLinkedErrors.

Lemma causes_no_link h key n error :
  asError h (getProp error key) = None -> causes h key n error = [].
Proof. intros H. destruct n; simpl; [reflexivity | now rewrite H]. Qed.

Lemma room_full limit len :
  Z.of_nat len + 1 >= limit -> room limit len = O.
Proof. unfold room. lia. Qed.

Lemma room_step limit len :
  ~ Z.of_nat len + 1 >= limit -> room limit len = S (room limit (S len)).
Proof. unfold room. lia. Qed.

(** The walk in closed form: the records of the next causes, as many as
    the limit leaves room for, the farthest in front, then the stack. *)
Lemma walk_causes parser limit h error key stack :
  _walkErrorTree parser limit h error key stack =
  (reverse (map (linkedException parser)
            (causes h key (room limit (length stack)) error)) ++ stack)%list.
Proof.
  funelim (_walkErrorTree parser limit h error key stack).
  - rewrite causes_no_link by assumption. reflexivity.
  - rewrite room_full by assumption. reflexivity.
  - match goal with IH : _walkErrorTree _ _ _ _ _ _ = (_ ++ _)%list |- _ => rewrite IH end.
    match goal with N : ~ _ >= _ |- _ => rewrite (room_step _ _ N) end.
    simpl causes.
    match goal with E : asError _ _ = Some _ |- _ => rewrite E end.
    simpl map. rewrite reverse_cons, <- app_assoc. reflexivity.
Qed.

Lemma causes_of_chain h key error cs n :
  cause_chain h key error cs -> causes h key n error = take n cs.
Proof.
  intros Hc. revert n. induction Hc as [error Hn | error cause cs Hl Hc IH]; intros n.
  - rewrite causes_no_link by assumption. now destruct n.
  - destruct n as [| n]; simpl; [reflexivity |]. rewrite Hl, IH. reflexivity.
Qed.

(** A chain is determined by the error it starts from. *)
Lemma cause_chain_unique h key error cs1 cs2 :
  cause_chain h key error cs1 -> cause_chain h key error cs2 -> cs1 = cs2.
Proof.
  intros H1. revert cs2.
  induction H1 as [error Hn | error cause cs Hl Hc IH]; intros cs2 H2;
    inversion H2; subst; try congruence.
  replace cause0 with cause in * by congruence.
  f_equal. now apply IH.
Qed.

Lemma causes_self h key error n :
  asError h (getProp error key) = Some error ->
  causes h key n error = replicate n error.
Proof.
  intros Hs. induction n as [| n IH]; simpl; [reflexivity |].
  rewrite Hs, IH. reflexivity.
Qed.

Lemma causes_length h key n error : (length (causes h key n error) <= n)%nat.
Proof.
  revert error. induction n as [| n IH]; intros error; simpl; [lia |].
  destruct (asError h (getProp error key)); simpl; [| lia].
  specialize (IH e). lia.
Qed.

Lemma lookup_reverse_from_end {A} (l : list A) i x :
  l !! i = Some x -> reverse l !! (length l - 1 - i)%nat = Some x.
Proof.
  intros H. pose proof (lookup_lt_Some _ _ _ H) as Hlt.
  rewrite reverse_lookup by lia.
  replace (length l - S (length l - 1 - i))%nat with i by lia. exact H.
Qed.

(** C1. For a cause chain [cs] that starts below [error] (n = length cs
    consecutive instances of Error along the key) and a limit L >= 1, the
    walk returns the records of the first min(n, L-1) causes, oldest first:
    its length is min(n, L-1), the record of cause number i sits i places
    from the end, and the first element is the record of the deepest cause
    walked, which is the deepest cause of the chain when n <= L-1. *)
Theorem walk_chain_length_order parser limit h error key cs :
  cause_chain h key error cs ->
  1 <= limit ->
  let records := _walkErrorTree parser limit h error key [] in
  let walked := take (Z.to_nat (limit - 1)) cs in
  records = reverse (map (linkedException parser) walked) /\
  Z.of_nat (length records) = Z.min (Z.of_nat (length cs)) (limit - 1) /\
  (forall i cause,
      Z.of_nat i < limit - 1 -> cs !! i = Some cause ->
      records !! (length records - 1 - i)%nat = Some (linkedException parser cause)) /\
  head records = option_map (linkedException parser) (last walked) /\
  (Z.of_nat (length cs) <= limit - 1 -> walked = cs).
Proof.
  intros Hc Hl records walked.
  assert (Hr : records = reverse (map (linkedException parser) walked)).
  { subst records walked. rewrite walk_causes, app_nil_r.
    rewrite (causes_of_chain _ _ _ _ _ Hc). unfold room. simpl length.
    replace (limit - 1 - Z.of_nat 0) with (limit - 1) by lia. reflexivity. }
  split; [exact Hr |]. split; [| split; [| split]].
  - rewrite Hr. subst walked.
    rewrite length_reverse, length_map, length_take. lia.
  - intros i cause Hi Hcs.
    assert (Hm : map (linkedException parser) walked !! i
                 = Some (linkedException parser cause)).
    { subst walked. rewrite list_lookup_fmap, lookup_take_lt by lia. now rewrite Hcs. }
    apply lookup_reverse_from_end in Hm. rewrite Hr, length_reverse. exact Hm.
  - rewrite Hr, head_reverse.
    change (map (linkedException parser) walked) with (linkedException parser <$> walked).
    rewrite fmap_last. now destruct (last walked).
  - intros Hfit. subst walked. apply take_ge. lia.
Qed.

(** Without the assumption on the limit: a limit below 1 leaves no room,
    and the walk returns no record. *)
Lemma walk_chain_length_any_limit parser limit h error key cs :
  cause_chain h key error cs ->
  Z.of_nat (length (_walkErrorTree parser limit h error key []))
  = Z.min (Z.of_nat (length cs)) (Z.max 0 (limit - 1)).
Proof.
  intros Hc. rewrite walk_causes, app_nil_r, (causes_of_chain _ _ _ _ _ Hc).
  rewrite length_reverse, length_map, length_take. unfold room. simpl length. lia.
Qed.

Lemma sample_chain :
  cause_chain sampleStore "cause" rootError [javaError; leafError].
Proof.
  apply chain_link; [reflexivity |].
  apply chain_link; [reflexivity |].
  apply chain_end. reflexivity.
Qed.

Lemma walk_chain_length_order_witness :
  let records := _walkErrorTree noFrames 5 sampleStore rootError "cause" [] in
  let walked := take (Z.to_nat (5 - 1)) [javaError; leafError] in
  records = reverse (map (linkedException noFrames) walked) /\
  Z.of_nat (length records) = Z.min (Z.of_nat (length [javaError; leafError])) (5 - 1) /\
  (forall i cause,
      Z.of_nat i < 5 - 1 -> [javaError; leafError] !! i = Some cause ->
      records !! (length records - 1 - i)%nat = Some (linkedException noFrames cause)) /\
  head records = option_map (linkedException noFrames) (last walked) /\
  (Z.of_nat (length [javaError; leafError]) <= 5 - 1 -> walked = [javaError; leafError]).
Proof.
  apply (walk_chain_length_order noFrames 5 sampleStore rootError "cause"
           [javaError; leafError]); [exact sample_chain | lia].
Defined.

(** The sample chain under the default limit: the leaf first, then the
    Java throwable that it caused. *)
Example walk_sample :
  _walkErrorTree noFrames DEFAULT_LIMIT sampleStore rootError "cause" []
  = [linkedException noFrames leafError; linkedException noFrames javaError].
Proof. reflexivity. Qed.

(** Under the limit 2 only the nearest cause is walked. *)
Example walk_sample_truncated :
  _walkErrorTree noFrames 2 sampleStore rootError "cause" []
  = [linkedException noFrames javaError].
Proof. reflexivity. Qed.

(** *** The symbol lines of Objective-C exceptions *)

(** C2. On the line ["0   MyApp   0x0000000102345678 -[MyApp foo] + 40"]
    the positional rule of [exceptionFromAppleStackSymbols] gives the
    function ["-[MyApp foo]"], but the package ["yApp"] (offset 5 is one past
    the first letter) and the address ["000000010234567"] (the exclusive end
    [addrEndIndex - 1] cuts the last digit): not the package ["MyApp"] and
    the address ["0000000102345678"] of the line. *)
Theorem apple_symbol_sample :
  stacktrace (exceptionFromAppleStackSymbols (Some "NSException") (MsgString "boom")
                [sampleSymbol])
  = Some {| frames :=
      [ {| platform := Some "cocoa"; module := None; filename := None;
           lineno := None;
           function := Some "-[MyApp foo]";
           package := Some "yApp";
           instruction_addr := Some "000000010234567" |} ] |}
  /\ package (appleSymbolFrame sampleSymbol) <> Some "MyApp"
  /\ instruction_addr (appleSymbolFrame sampleSymbol) <> Some "0000000102345678".
Proof. repeat split; vm_compute; congruence. Qed.

(** The same on a line in the layout of [callStackSymbols]. *)
Example apple_symbol_core_foundation :
  appleSymbolFrame
    "0   CoreFoundation                      0x00007fff2043a6af __exceptionPreprocess + 242"
  = {| platform := Some "cocoa"; module := None; filename := None; lineno := None;
       function := Some "__exceptionPreprocess";
       package := Some "oreFoundation";
       instruction_addr := Some "00007fff2043a6a" |}.
Proof. reflexivity. Qed.

(** The sibling builder pads every address to sixteen digits. *)
Example apple_address_sample :
  instruction_addr (appleAddressFrame 255) = Some "00000000000000ff".
Proof. reflexivity. Qed.

(** *** Messages of JavaScript errors *)

Lemma extractMessage_falsy ex :
  messageFalsy (message ex) = true ->
  extractMessage ex = MsgString "No error message".
Proof. intros H. unfold extractMessage. now rewrite H. Qed.

(** The type of the record is the name of the error, whatever the frames. *)
Lemma exceptionFromError_type parser ex :
  type (exceptionFromError parser ex) = name ex.
Proof.
  unfold exceptionFromError. cbv zeta.
  destruct (0 <? Z.of_nat (length (parseStackFrames parser ex)))%Z; simpl;
    destruct (name ex); simpl; try reflexivity;
    destruct (isEmptyString (extractMessage ex)); reflexivity.
Qed.

Lemma exceptionFromError_value parser ex :
  value (exceptionFromError parser ex) =
  match name ex with
  | None => if isEmptyString (extractMessage ex)
            then MsgString "Unrecoverable error caught"
            else extractMessage ex
  | Some _ => extractMessage ex
  end.
Proof.
  unfold exceptionFromError. cbv zeta.
  destruct (0 <? Z.of_nat (length (parseStackFrames parser ex)))%Z; simpl;
    destruct (name ex); simpl; try reflexivity;
    destruct (isEmptyString (extractMessage ex)); reflexivity.
Qed.

Lemma exceptionFromError_stacktrace parser ex :
  stacktrace (exceptionFromError parser ex) =
  match parseStackFrames parser ex with
  | [] => None
  | fs => Some {| frames := fs |}
  end.
Proof.
  unfold exceptionFromError. cbv zeta.
  destruct (parseStackFrames parser ex) as [| f fs] eqn:E.
  - simpl. destruct (name ex); simpl; [reflexivity |].
    destruct (isEmptyString (extractMessage ex)); reflexivity.
  - replace (0 <? Z.of_nat (length (f :: fs)))%Z with true
      by (symmetry; apply Z.ltb_lt; simpl length; lia).
    simpl. destruct (name ex); simpl; [reflexivity |].
    destruct (isEmptyString (extractMessage ex)); reflexivity.
Qed.

(** C3, as the claim has it, fails: an error with the empty message and no
    name gets the value ["No error message"], since [extractMessage] has
    replaced the empty message before the test for the empty value. *)
Lemma blank_error_value_counterexample :
  name blankError = None /\ message blankError = MsgString "" /\
  value (exceptionFromError noFrames blankError) = MsgString "No error message" /\
  value (exceptionFromError noFrames blankError) <> MsgString "Unrecoverable error caught".
Proof. repeat split; vm_compute; congruence. Qed.

(** Where the second placeholder does appear: no name, and a message
    object whose [error.message] is the empty string. *)
Lemma unrecoverable_error_value parser ex :
  name ex = None ->
  message ex = MsgObject (Some (VString "")) ->
  value (exceptionFromError parser ex) = MsgString "Unrecoverable error caught".
Proof.
  intros Hn Hm. rewrite exceptionFromError_value, Hn.
  unfold extractMessage. rewrite Hm. reflexivity.
Qed.

(** C3, amended. For every Error whose message is the empty string and
    whose name is undefined, [exceptionFromError] returns a record whose
    value is ["No error message"]: the empty message counts as absent. *)
Theorem blank_error_value parser ex :
  name ex = None ->
  message ex = MsgString "" ->
  value (exceptionFromError parser ex) = MsgString "No error message".
Proof.
  intros Hn Hm. rewrite exceptionFromError_value, Hn.
  unfold extractMessage. rewrite Hm. reflexivity.
Qed.

Lemma blank_error_value_witness :
  value (exceptionFromError noFrames blankError) = MsgString "No error message".
Proof. apply (blank_error_value noFrames blankError); reflexivity. Defined.

(** *** The stack trace of a record *)

(** C6, as the claim has it, fails: a Java throwable with an empty list of
    stack elements gets a stack trace with an empty list of frames, also
    when the walker builds the record. *)
Lemma empty_native_stacktrace_counterexample :
  stackElements javaError = Some [] /\
  stacktrace (linkedException noFrames javaError) = Some {| frames := [] |} /\
  stacktrace (linkedException noFrames javaError) <> None.
Proof. repeat split; vm_compute; congruence. Qed.

(** C6, amended. A record built from a JavaScript error has no stack trace
    when the parser found no frame (and the frames found otherwise); a
    record built from [stackElements], [stackSymbols] or
    [stackReturnAddresses] always has a stack trace, with one frame for
    each entry of that list, so with an empty list of frames when the list
    is empty. *)
Theorem linked_exception_stacktrace parser linkedError :
  match stackElements linkedError, stackSymbols linkedError,
        stackReturnAddresses linkedError with
  | Some els, _, _ =>
      stacktrace (linkedException parser linkedError)
      = Some {| frames := map javaFrame els |}
  | None, Some syms, _ =>
      stacktrace (linkedException parser linkedError)
      = Some {| frames := map appleSymbolFrame syms |}
  | None, None, Some addrs =>
      stacktrace (linkedException parser linkedError)
      = Some {| frames := map appleAddressFrame addrs |}
  | None, None, None =>
      stacktrace (linkedException parser linkedError)
      = match parseStackFrames parser linkedError with
        | [] => None
        | fs => Some {| frames := fs |}
        end
  end.
Proof.
  unfold linkedException.
  destruct (stackElements linkedError); [reflexivity |].
  destruct (stackSymbols linkedError); [reflexivity |].
  destruct (stackReturnAddresses linkedError); [reflexivity |].
  apply exceptionFromError_stacktrace.
Qed.

(** *** The handler *)

(** C5. When the event has no exception data (no [exception], or no
    [values] in it), or there is no hint, or the original exception of the
    hint is not an instance of Error, the handler returns the event as it
    got it. *)
Theorem handler_unchanged parser key limit h event hint :
  exception event = None \/
  (exists ex, exception event = Some ex /\ values ex = None) \/
  hint = None \/
  (exists hnt, hint = Some hnt /\ isInstanceOf h (originalException hnt) = false) ->
  _handler parser key limit h event hint = event.
Proof.
  unfold _handler, isInstanceOf.
  intros [He | [(ex & He & Hv) | [Hh | (hnt & Hh & Hi)]]].
  - now rewrite He.
  - now rewrite He, Hv.
  - destruct (exception event) as [ex |]; [| reflexivity].
    destruct (values ex); [| reflexivity]. now rewrite Hh.
  - destruct (exception event) as [ex |]; [| reflexivity].
    destruct (values ex); [| reflexivity]. rewrite Hh.
    destruct (asError h (originalException hnt)); [discriminate | reflexivity].
Qed.

Lemma handler_unchanged_witness :
  _handler noFrames "cause" 5 sampleStore sampleEvent
    (Some {| originalException := VRef 0%nat |}) = sampleEvent.
Proof.
  apply (handler_unchanged noFrames "cause" 5 sampleStore sampleEvent).
  left. reflexivity.
Defined.

(** What the handler does otherwise: the linked records go in front of the
    exceptions of the event, everything else stays. *)
Lemma handler_links parser key limit h event hint ex vals hnt original :
  exception event = Some ex -> values ex = Some vals ->
  hint = Some hnt -> asError h (originalException hnt) = Some original ->
  _handler parser key limit h event hint =
  {| exception :=
       Some {| values :=
         Some (_walkErrorTree parser limit h original key [] ++ vals)%list |};
     other := other event |}.
Proof.
  intros He Hv Hh Ho. unfold _handler. now rewrite He, Hv, Hh, Ho.
Qed.

(** *** Termination *)

(** The bounded walk answers exactly when it is allowed more invocations
    than there are causes within the room the limit leaves, and then with
    the value of the walk. *)
Lemma walkWithin_spec calls parser limit h error key stack :
  walkWithin calls parser limit h error key stack =
  if (length (causes h key (room limit (length stack)) error) <? calls)%nat
  then Some (_walkErrorTree parser limit h error key stack)
  else None.
Proof.
  revert error stack.
  induction calls as [| calls IH]; intros error stack.
  - rewrite (proj2 (Nat.ltb_ge _ 0)) by lia. reflexivity.
  - cbn [walkWithin]. rewrite walk_causes.
    destruct (asError h (getProp error key)) as [linkedError |] eqn:E.
    + destruct (Z_ge_dec (Z.of_nat (length stack) + 1) limit) as [Hge | Hlt].
      * rewrite room_full by assumption. reflexivity.
      * rewrite IH, walk_causes. rewrite (room_step _ _ Hlt).
        cbn [causes]. rewrite E. cbn [length map].
        rewrite reverse_cons, <- app_assoc.
        change (S ?a <? S ?b)%nat with (a <? b)%nat. reflexivity.
    + rewrite causes_no_link by assumption. reflexivity.
Qed.

(** C7, as the claim has it, fails: nothing detects a cycle. With the
    default limit an error that is its own cause is walked four times: two
    invocations (the first and one more) do not finish the walk, and the
    result holds four records of the same error. *)
Lemma self_cycle_counterexample :
  asError selfStore (getProp selfError "cause") = Some selfError /\
  walkWithin 2 noFrames DEFAULT_LIMIT selfStore selfError "cause" [] = None /\
  _walkErrorTree noFrames DEFAULT_LIMIT selfStore selfError "cause" []
  = replicate 4 (linkedException noFrames selfError).
Proof. repeat split; reflexivity. Qed.

(** C7, amended. On every store, cyclic or not, and for every limit the
    walk returns after at most max(0, limit - 1 - stack.length) + 1
    invocations. An error that is its own cause is not recognised: for a
    limit L >= 1 it is walked until the limit stops the recursion, which
    takes exactly L invocations and yields L - 1 records of that error. *)
Theorem walk_terminates parser limit h error key stack :
  (forall calls, (room limit (length stack) < calls)%nat ->
     walkWithin calls parser limit h error key stack
     = Some (_walkErrorTree parser limit h error key stack)) /\
  (asError h (getProp error key) = Some error ->
     _walkErrorTree parser limit h error key []
     = replicate (Z.to_nat (limit - 1)) (linkedException parser error) /\
     forall calls,
       walkWithin calls parser limit h error key [] <> None <->
       (Z.to_nat (limit - 1) < calls)%nat).
Proof.
  split.
  - intros calls Hc. rewrite walkWithin_spec.
    pose proof (causes_length h key (room limit (length stack)) error).
    rewrite (proj2 (Nat.ltb_lt _ _)) by lia. reflexivity.
  - intros Hs.
    assert (Hr : room limit (@length Exception []) = Z.to_nat (limit - 1)).
    { unfold room. simpl length. f_equal. lia. }
    split.
    + rewrite walk_causes, app_nil_r, Hr, causes_self by assumption.
      change (map ?f ?l) with (f <$> l).
      rewrite fmap_replicate, reverse_replicate. reflexivity.
    + intros calls. rewrite walkWithin_spec, Hr, causes_self by assumption.
      rewrite length_replicate.
      destruct (Nat.ltb_spec (Z.to_nat (limit - 1)) calls);
        split; intros; try congruence; try lia.
Qed.

Lemma walk_terminates_witness :
  (forall calls, (room 5 (@length Exception []) < calls)%nat ->
     walkWithin calls noFrames 5 selfStore selfError "cause" []
     = Some (_walkErrorTree noFrames 5 selfStore selfError "cause" [])) /\
  (_walkErrorTree noFrames 5 selfStore selfError "cause" []
     = replicate (Z.to_nat (5 - 1)) (linkedException noFrames selfError) /\
     forall calls,
       walkWithin calls noFrames 5 selfStore selfError "cause" [] <> None <->
       (Z.to_nat (5 - 1) < calls)%nat).
Proof.
  destruct (walk_terminates noFrames 5 selfStore selfError "cause" []) as [H1 H2].
  split; [exact H1 | apply H2; reflexivity].
Defined.

(** *** The options *)

(** C9. A zero limit and an empty key are replaced by the defaults: the
    integration built from them is the one built without them, so the
    event processor does the same with either; no other limit is checked
    (a negative one is kept), and with the option [limit = 0] the walk of
    the sample chain still returns its two records. *)
Theorem constructor_falsy_defaults :
  (forall k, constructor {| key := k; limit := Some 0 |}
             = constructor {| key := k; limit := None |}) /\
  (forall l, constructor {| key := Some ""; limit := l |}
             = constructor {| key := None; limit := l |}) /\
  constructor {| key := Some ""; limit := Some 0 |}
    = {| _key := "cause"; _limit := 5 |} /\
  (forall client h event hint,
     eventProcessor client
       (Some (constructor {| key := Some ""; limit := Some 0 |})) h event hint
     = eventProcessor client
         (Some (constructor {| key := Some "cause"; limit := Some 5 |})) h event hint) /\
  _limit (constructor {| key := None; limit := Some (-3) |}) = -3 /\
  length (_walkErrorTree noFrames
            (_limit (constructor {| key := None; limit := Some 0 |}))
            sampleStore rootError
            (_key (constructor {| key := Some ""; limit := None |})) []) = 2%nat.
Proof.
  repeat split; reflexivity.
Qed.

End NativeLinkedErrorsFacts.

(** * Properties of the background spans *)

Module BackgroundSpansFacts.

Import BackgroundSpans.
Local Open Scope list_scope.

(** *** The scan for the trailing span *)

(** A candidate without an end is never replaced. *)
Lemma scanFrom_open spans n i s :
  endTimestamp s = None -> scanFrom spans n (Some (i, s)) = Some (i, s).
Proof.
  intros Hs. induction n as [| n IH]; simpl; [reflexivity |].
  destruct (spans !! n) as [span |]; [| exact IH].
  unfold scanStep. rewrite Hs. destruct (endTimestamp span); exact IH.
Qed.

(** Neither is a candidate that ends when the span at hand ends. *)
Lemma scanStep_tie i span ti t e :
  endTimestamp span = Some e -> endTimestamp t = Some e ->
  scanStep i span (Some (ti, t)) = Some (ti, t).
Proof.
  intros Hs Ht. unfold scanStep. rewrite Hs, Ht, Z.ltb_irrefl. reflexivity.
Qed.

(** The bound on the spans from [n] on, from the bound on those above [n]
    ([Hall]): the span at [n] is looked at on its own. *)
Ltac by_index Hall n :=
  let j := fresh "j" in
  let s' := fresh "s'" in
  let t' := fresh "t'" in
  let Hj := fresh "Hj" in
  let Hs := fresh "Hs" in
  let Ht := fresh "Ht" in
  intros j s' t' Hj Hs Ht;
  destruct (decide (j = n)) as [-> | ?];
  [ try congruence;
    match goal with
    | Hn : _ !! n = Some ?sp |- _ => assert (s' = sp) as -> by congruence
    end;
    try congruence;
    match goal with
    | He : endTimestamp _ = Some _ |- _ => rewrite He in Ht; injection Ht as <-
    end;
    split; intros; lia
  | destruct (Hall j s' t' ltac:(lia) Hs Ht); split; intros; lia ].

(** One turn of the loop keeps the candidate the latest to end. *)
Lemma scanStep_latest spans n i s m span :
  spans !! n = Some span ->
  latestEnded spans (S n) i s m ->
  exists i' s' m', scanStep n span (Some (i, s)) = Some (i', s') /\
                   latestEnded spans n i' s' m'.
Proof.
  intros Hn (Hi & Hm & Hle & Hall). unfold scanStep. rewrite Hm.
  destruct (endTimestamp span) as [e |] eqn:He.
  - destruct (Z.ltb_spec m e) as [Hlt | Hge].
    + exists n, span, e. split; [reflexivity |].
      split; [exact Hn |]. split; [exact He |]. split; [lia |].
      by_index Hall n.
    + exists i, s, m. split; [reflexivity |].
      split; [exact Hi |]. split; [exact Hm |]. split; [lia |].
      by_index Hall n.
  - exists i, s, m. split; [reflexivity |].
    split; [exact Hi |]. split; [exact Hm |]. split; [lia |].
    by_index Hall n.
Qed.

Lemma scanFrom_latest spans n i s m :
  latestEnded spans n i s m ->
  exists i' s' m', scanFrom spans n (Some (i, s)) = Some (i', s') /\
                   latestEnded spans 0 i' s' m'.
Proof.
  revert i s m. induction n as [| n IH]; intros i s m H.
  - exists i, s, m. split; [reflexivity | exact H].
  - cbn [scanFrom]. destruct (spans !! n) as [span |] eqn:Hn.
    + destruct (scanStep_latest spans n i s m span Hn H) as (i' & s' & m' & -> & H').
      apply (IH _ _ _ H').
    + apply (IH i s m). destruct H as (Hi & Hm & Hle & Hall).
      split; [exact Hi |]. split; [exact Hm |]. split; [lia |].
      by_index Hall n.
Qed.

Lemma findTrailing_snoc l x :
  findTrailing (l ++ [x]) = scanFrom (l ++ [x]) (length l) (Some (length l, x)).
Proof.
  unfold findTrailing. rewrite length_app. simpl length.
  replace (length l + 1)%nat with (S (length l)) by lia.
  simpl. rewrite list_lookup_middle by reflexivity. reflexivity.
Qed.

(** The three ways the scan can end. *)
Lemma findTrailing_cases spans :
  (spans = [] /\ findTrailing spans = None) \/
  (exists l x, spans = l ++ [x] /\ endTimestamp x = None /\
               findTrailing spans = Some (length l, x)) \/
  (exists l x i s m, spans = l ++ [x] /\ is_Some (endTimestamp x) /\
                     findTrailing spans = Some (i, s) /\ latestEnded spans 0 i s m).
Proof.
  destruct spans as [| y spans'] using rev_ind; [left; split; reflexivity |].
  clear IHspans'. right.
  destruct (endTimestamp y) as [m |] eqn:Hy.
  - right.
    assert (H0 : latestEnded (spans' ++ [y]) (length spans') (length spans') y m).
    { split; [apply list_lookup_middle; reflexivity |].
      split; [exact Hy |]. split; [lia |].
      intros j s' t' Hj Hs Ht.
      assert (j = length spans') as ->.
      { apply lookup_lt_Some in Hs. rewrite length_app in Hs. simpl in Hs. lia. }
      rewrite list_lookup_middle in Hs by reflexivity.
      assert (s' = y) as -> by congruence.
      assert (t' = m) as -> by congruence. split; intros; lia. }
    destruct (scanFrom_latest _ _ _ _ _ H0) as (i & s & m' & Hf & Hl).
    exists spans', y, i, s, m'. rewrite findTrailing_snoc.
    split; [reflexivity |]. split; [eauto |]. split; assumption.
  - left. exists spans', y. rewrite findTrailing_snoc, scanFrom_open by assumption.
    split; [reflexivity |]. split; [assumption | reflexivity].
Qed.

Lemma findTrailing_lookup spans i s :
  findTrailing spans = Some (i, s) -> spans !! i = Some s.
Proof.
  intros H.
  destruct (findTrailing_cases spans)
    as [[_ Hn] | [(l & x & -> & _ & Hf) | (l & x & i' & s' & m & _ & _ & Hf & Hl)]].
  - congruence.
  - rewrite Hf in H. injection H as <- <-. apply list_lookup_middle. reflexivity.
  - rewrite Hf in H. injection H as <- <-. apply Hl.
Qed.

(** No span ends after a selected span that has an end. *)
Lemma findTrailing_latest spans i s m :
  findTrailing spans = Some (i, s) -> endTimestamp s = Some m ->
  forall j s' t', spans !! j = Some s' -> endTimestamp s' = Some t' -> (t' <= m)%Z.
Proof.
  intros H Hm j s' t' Hs Ht.
  destruct (findTrailing_cases spans)
    as [[_ Hn] | [(l & x & -> & Hx & Hf) | (l & x & i' & s0 & m0 & _ & _ & Hf & Hl)]].
  - congruence.
  - rewrite Hf in H. injection H as <- <-. congruence.
  - rewrite Hf in H. injection H as <- <-.
    destruct Hl as (_ & Hm0 & _ & Hall).
    assert (m0 = m) as -> by congruence.
    destruct (Hall j s' t' ltac:(lia) Hs Ht). assumption.
Qed.

(** C10. In the scan from the end of the list: when the last span has no
    end timestamp it is the span selected, whatever the other spans are;
    when the last span has one, the span selected ends last of all ended
    spans and, of the spans that end then, is the one of greatest index;
    a span that ends when the candidate ends never replaces it. *)
Theorem trailing_selection spans lastSpan :
  last spans = Some lastSpan ->
  (endTimestamp lastSpan = None ->
     findTrailing spans = Some ((length spans - 1)%nat, lastSpan)) /\
  (is_Some (endTimestamp lastSpan) ->
     exists i s m,
       findTrailing spans = Some (i, s) /\ spans !! i = Some s /\
       endTimestamp s = Some m /\
       forall j s' t', spans !! j = Some s' -> endTimestamp s' = Some t' ->
         (t' <= m)%Z /\ (t' = m -> (j <= i)%nat)) /\
  (forall i span ti t e,
     endTimestamp span = Some e -> endTimestamp t = Some e ->
     scanStep i span (Some (ti, t)) = Some (ti, t)).
Proof.
  intros Hlast. split; [| split].
  - intros Hopen.
    destruct (findTrailing_cases spans)
      as [[-> _] | [(l & x & -> & Hx & Hf) | (l & x & i & s & m & -> & Hx & _)]].
    + discriminate.
    + rewrite last_snoc in Hlast. injection Hlast as <-.
      rewrite Hf, length_app. simpl length. do 2 f_equal. lia.
    + rewrite last_snoc in Hlast. injection Hlast as <-.
      rewrite Hopen in Hx. destruct Hx; discriminate.
  - intros Hended.
    destruct (findTrailing_cases spans)
      as [[-> _] | [(l & x & -> & Hx & Hf) | (l & x & i & s & m & -> & Hx & Hf & Hl)]].
    + discriminate.
    + rewrite last_snoc in Hlast. injection Hlast as <-.
      rewrite Hx in Hended. destruct Hended; discriminate.
    + exists i, s, m. destruct Hl as (Hi & Hm & _ & Hall).
      split; [exact Hf |]. split; [exact Hi |]. split; [exact Hm |].
      intros j s' t' Hs Ht. apply (Hall j s' t'); [lia | assumption | assumption].
  - intros i span ti t e. apply scanStep_tie.
Qed.

Lemma trailing_selection_witness :
  (endTimestamp (endedSpan "db.query" 3 7) = None ->
     findTrailing tiedSpans
     = Some ((length tiedSpans - 1)%nat, endedSpan "db.query" 3 7)) /\
  (is_Some (endTimestamp (endedSpan "db.query" 3 7)) ->
     exists i s m,
       findTrailing tiedSpans = Some (i, s) /\ tiedSpans !! i = Some s /\
       endTimestamp s = Some m /\
       forall j s' t', tiedSpans !! j = Some s' -> endTimestamp s' = Some t' ->
         (t' <= m)%Z /\ (t' = m -> (j <= i)%nat)) /\
  (forall i span ti t e,
     endTimestamp span = Some e -> endTimestamp t = Some e ->
     scanStep i span (Some (ti, t)) = Some (ti, t)).
Proof.
  apply (trailing_selection tiedSpans (endedSpan "db.query" 3 7)). reflexivity.
Defined.

(** In the sample with a tie the third span is selected, not the second. *)
Example trailing_of_tied : findTrailing tiedSpans = Some (2%nat, endedSpan "db.query" 3 7).
Proof. reflexivity. Qed.

(** An open last span is selected although a background span ended before. *)
Example trailing_of_open_last :
  findTrailing [endedSpan BACKGROUND_SPAN_OP 1 5; openSpan "ui.load" 2]
  = Some (1%nat, openSpan "ui.load" 2).
Proof. reflexivity. Qed.

(** *** The wrapper *)

Lemma beforeTransactionFinish_recorder {Effect}
    (originalFinish : option Z -> Transaction -> Finished Effect)
    finishedAt tx recorder :
  isSpanClass tx = true -> spanRecorder tx = Some recorder ->
  beforeTransactionFinish originalFinish finishedAt tx
  = {| effect :=
         effect (originalFinish finishedAt
                   (handedOn tx (pruneTrailing (spans recorder))));
       returned := None |}.
Proof.
  intros Hc Hr. unfold beforeTransactionFinish. rewrite Hc, Hr. reflexivity.
Qed.

(** C4, as the claim has it, fails: the selected span is not always the
    span with the latest end timestamp. In a list whose last span is still
    open, the background span in front is the only span that ended, so no
    span ends later, and its operation is ["app.background"]; the wrapper
    selects the open span and hands the list on with the background span
    in it. *)
Lemma latest_ended_background_kept :
  spanRecorder openLastTransaction = Some {| spans := openLast |} /\
  openLast !! 0%nat = Some (endedSpan BACKGROUND_SPAN_OP 1 5) /\
  (forall j s' t', openLast !! j = Some s' -> endTimestamp s' = Some t' -> (t' <= 5)%Z) /\
  findTrailing openLast = Some (1%nat, openSpan "ui.load" 2) /\
  beforeTransactionFinish recordingFinish None openLastTransaction
  = {| effect :=
         {| spanId := "e5"; isSpanClass := true;
            spanRecorder := Some {| spans := openLast |};
            __backgroundSpan := false; finish := Wrapped Original |};
       returned := None |}.
Proof.
  split; [reflexivity |]. split; [reflexivity |]. split; [| split; reflexivity].
  intros j s' t' Hs Ht. destruct j as [| [| j]]; try discriminate.
  - injection Hs as <-. injection Ht as <-. lia.
  - injection Hs as <-. discriminate.
Qed.

(** C4, amended. When a transaction of the span class with a recorder is
    finished through the wrapper, the span selected of a list that is not
    empty is its last span if that span has no end timestamp, and otherwise
    the span with the latest end timestamp (of greatest index among those
    that end then). If the operation of the selected span is
    ["app.background"], the original [finish] is called on the transaction
    whose child list is the old one without the entry at the index of that
    span, nothing else removed; if it is another operation, it is called on
    the transaction with the child list as it was. In both cases the mark
    is deleted before the call, and the value of the call is not returned. *)
Theorem finish_prunes_trailing {Effect}
    (originalFinish : option Z -> Transaction -> Finished Effect)
    finishedAt tx recorder lastSpan :
  isSpanClass tx = true ->
  spanRecorder tx = Some recorder ->
  last (spans recorder) = Some lastSpan ->
  exists i s,
    spans recorder = take i (spans recorder) ++ s :: drop (S i) (spans recorder) /\
    length (take i (spans recorder)) = i /\
    (endTimestamp lastSpan = None ->
       i = (length (spans recorder) - 1)%nat /\ s = lastSpan) /\
    (is_Some (endTimestamp lastSpan) ->
       exists m, endTimestamp s = Some m /\
         forall j s' t', spans recorder !! j = Some s' -> endTimestamp s' = Some t' ->
           (t' <= m)%Z /\ (t' = m -> (j <= i)%nat)) /\
    (op s = Some BACKGROUND_SPAN_OP ->
       beforeTransactionFinish originalFinish finishedAt tx
       = {| effect :=
              effect (originalFinish finishedAt
                {| spanId := spanId tx; isSpanClass := isSpanClass tx;
                   spanRecorder :=
                     Some {| spans := take i (spans recorder)
                                      ++ drop (S i) (spans recorder) |};
                   __backgroundSpan := false; finish := finish tx |});
            returned := None |}) /\
    (op s <> Some BACKGROUND_SPAN_OP ->
       beforeTransactionFinish originalFinish finishedAt tx
       = {| effect :=
              effect (originalFinish finishedAt
                {| spanId := spanId tx; isSpanClass := isSpanClass tx;
                   spanRecorder := Some {| spans := spans recorder |};
                   __backgroundSpan := false; finish := finish tx |});
            returned := None |}).
Proof.
  intros Hc Hr Hlast.
  rewrite (beforeTransactionFinish_recorder _ _ _ _ Hc Hr).
  unfold pruneTrailing, handedOn.
  destruct (findTrailing_cases (spans recorder))
    as [[Hnil _] | [(l & x & Hsp & Hx & Hf) | (l & x & i & s & m & Hsp & Hx & Hf & Hl)]].
  - rewrite Hnil in Hlast. discriminate.
  - assert (x = lastSpan) as ->
      by (rewrite Hsp, last_snoc in Hlast; congruence).
    exists (length l), lastSpan. rewrite Hf.
    assert (Hi : spans recorder !! length l = Some lastSpan)
      by (rewrite Hsp; apply list_lookup_middle; reflexivity).
    split; [symmetry; apply take_drop_middle, Hi |].
    split; [apply length_take_le; apply lookup_lt_Some in Hi; lia |].
    split; [intros _; split; [rewrite Hsp, length_app; simpl; lia | reflexivity] |].
    split; [intros [m Hm]; congruence |].
    split; intros Hop; case_decide; try congruence.
    rewrite delete_take_drop. reflexivity.
  - assert (x = lastSpan) as ->
      by (rewrite Hsp, last_snoc in Hlast; congruence).
    exists i, s. rewrite Hf. destruct Hl as (Hi & Hm & _ & Hall).
    split; [symmetry; apply take_drop_middle, Hi |].
    split; [apply length_take_le; apply lookup_lt_Some in Hi; lia |].
    split; [intros Hopen; rewrite Hopen in Hx; destruct Hx; discriminate |].
    split.
    { intros _. exists m. split; [exact Hm |].
      intros j s' t' Hs Ht. apply (Hall j s' t'); [lia | assumption | assumption]. }
    split; intros Hop; case_decide; try congruence.
    rewrite delete_take_drop. reflexivity.
Qed.

Lemma finish_prunes_trailing_witness :
  exists i s,
    sampleSpans = take i sampleSpans ++ s :: drop (S i) sampleSpans /\
    length (take i sampleSpans) = i /\
    (endTimestamp (endedSpan BACKGROUND_SPAN_OP 4 9) = None ->
       i = (length sampleSpans - 1)%nat /\ s = endedSpan BACKGROUND_SPAN_OP 4 9) /\
    (is_Some (endTimestamp (endedSpan BACKGROUND_SPAN_OP 4 9)) ->
       exists m, endTimestamp s = Some m /\
         forall j s' t', sampleSpans !! j = Some s' -> endTimestamp s' = Some t' ->
           (t' <= m)%Z /\ (t' = m -> (j <= i)%nat)) /\
    (op s = Some BACKGROUND_SPAN_OP ->
       beforeTransactionFinish recordingFinish None sampleTransaction
       = {| effect :=
              effect (recordingFinish None
                {| spanId := spanId sampleTransaction;
                   isSpanClass := isSpanClass sampleTransaction;
                   spanRecorder :=
                     Some {| spans := take i sampleSpans ++ drop (S i) sampleSpans |};
                   __backgroundSpan := false; finish := finish sampleTransaction |});
            returned := None |}) /\
    (op s <> Some BACKGROUND_SPAN_OP ->
       beforeTransactionFinish recordingFinish None sampleTransaction
       = {| effect :=
              effect (recordingFinish None
                {| spanId := spanId sampleTransaction;
                   isSpanClass := isSpanClass sampleTransaction;
                   spanRecorder := Some {| spans := sampleSpans |};
                   __backgroundSpan := false; finish := finish sampleTransaction |});
            returned := None |}).
Proof.
  apply (finish_prunes_trailing recordingFinish None sampleTransaction
           {| spans := sampleSpans |} (endedSpan BACKGROUND_SPAN_OP 4 9));
    reflexivity.
Defined.

(** The wrapper on the sample: the background span is gone, the request
    stays, the mark is deleted, and the event id is not returned. *)
Example finish_sample :
  beforeTransactionFinish recordingFinish None sampleTransaction
  = {| effect :=
         {| spanId := "a1"; isSpanClass := true;
            spanRecorder := Some {| spans := [endedSpan "http.client" 1 3] |};
            __backgroundSpan := false; finish := Wrapped Original |};
       returned := None |}.
Proof. reflexivity. Qed.

(** Nothing to select in an empty list, which stays empty. *)
Lemma pruneTrailing_nil : pruneTrailing [] = [].
Proof. reflexivity. Qed.

(** Without the span class or a recorder the original [finish] gets the
    transaction untouched, and its value is returned. *)
Lemma beforeTransactionFinish_bypass {Effect}
    (originalFinish : option Z -> Transaction -> Finished Effect) endTimestamp tx :
  isSpanClass tx = false \/ spanRecorder tx = None ->
  beforeTransactionFinish originalFinish endTimestamp tx = originalFinish endTimestamp tx.
Proof.
  unfold beforeTransactionFinish. intros [H | H]; rewrite H; [reflexivity |].
  destruct (isSpanClass tx); reflexivity.
Qed.

(** *** The listener *)

Section ListenerFacts.

Variable startFinishedChild : Z -> Z -> string -> string -> Transaction -> Transaction.

Local Abbreviation onChange := (onChange startFinishedChild).
Local Abbreviation reachable := (reachable startFinishedChild).

(** A start that is set was read from the clock. *)
Lemma reachable_start_positive self t :
  reachable self -> _currentBackgroundStartTimestamp self = Some t -> (0 < t)%Z.
Proof.
  intros Hr. revert t.
  induction Hr as [| self now state tx Hr IH Hnow]; intros t; [discriminate |].
  unfold BackgroundSpans.onChange.
  destruct state, (truthyNumber (_currentBackgroundStartTimestamp self));
    simpl; try apply IH; try discriminate.
  intros [= <-]. exact Hnow.
Qed.

(** With a start that is set and not zero, only ["active"] has an effect. *)
Lemma onChange_pending self t now state tx :
  _currentBackgroundStartTimestamp self = Some t -> t <> 0%Z ->
  state <> active ->
  onChange now state self tx = (self, tx).
Proof.
  intros Hs Ht Hst. unfold BackgroundSpans.onChange, truthyNumber. rewrite Hs.
  destruct (Z.eqb_spec t 0) as [| _]; [contradiction |].
  destruct state; try reflexivity. contradiction.
Qed.

(** C8. In every reachable state in which the background start is set,
    another ["background"] event changes neither the state of the
    integration (the start stays what it was) nor the transaction. *)
Theorem background_keeps_start self t now tx :
  reachable self ->
  _currentBackgroundStartTimestamp self = Some t ->
  onChange now background self tx = (self, tx) /\
  _currentBackgroundStartTimestamp (fst (onChange now background self tx)) = Some t.
Proof.
  intros Hr Hs.
  pose proof (reachable_start_positive self t Hr Hs) as Hpos.
  rewrite (onChange_pending self t now background tx Hs) by (lia || discriminate).
  split; [reflexivity | exact Hs].
Qed.

(** The start is consumed by ["active"]. *)
Lemma active_consumes_start self t now tx :
  _currentBackgroundStartTimestamp self = Some t -> t <> 0%Z ->
  onChange now active self tx
  = ({| _currentBackgroundStartTimestamp := None |},
     _createBackgroundSpan startFinishedChild t now tx).
Proof.
  intros Hs Ht. unfold BackgroundSpans.onChange, truthyNumber. rewrite Hs.
  destruct (Z.eqb_spec t 0) as [| _]; [contradiction | reflexivity].
Qed.

(** The test for a start that is set is a test for a truthy number: a
    start of zero, which no clock reading gives, would count as unset. *)
Remark background_overwrites_zero now tx :
  onChange now background {| _currentBackgroundStartTimestamp := Some 0%Z |} tx
  = ({| _currentBackgroundStartTimestamp := Some now |}, tx).
Proof. reflexivity. Qed.

End ListenerFacts.

Lemma background_keeps_start_witness :
  onChange addFinishedChild 250 background
    (fst (onChange addFinishedChild 100 background
            {| _currentBackgroundStartTimestamp := None |} None)) None
  = (fst (onChange addFinishedChild 100 background
            {| _currentBackgroundStartTimestamp := None |} None), None) /\
  _currentBackgroundStartTimestamp
    (fst (onChange addFinishedChild 250 background
            (fst (onChange addFinishedChild 100 background
                    {| _currentBackgroundStartTimestamp := None |} None)) None))
  = Some 100%Z.
Proof.
  apply (background_keeps_start addFinishedChild
           (fst (onChange addFinishedChild 100 background
                   {| _currentBackgroundStartTimestamp := None |} None))
           100 250 None).
  - apply reachable_change; [apply reachable_init | lia].
  - reflexivity.
Defined.

End BackgroundSpansFacts.

(** * Further properties of the linked-errors integration *)

Module NativeLinkedErrorsMore.

Import NativeLinkedErrors NativeLinkedErrorsFacts.
Local Open Scope list_scope.

(** *** The handler on events it does change *)

Lemma walk_length_bound parser limit h error key :
  (length (_walkErrorTree parser limit h error key []) <= Z.to_nat (limit - 1))%nat.
Proof.
  rewrite walk_causes, app_nil_r, length_reverse, length_map.
  unfold room. simpl length.
  replace (limit - 1 - Z.of_nat 0) with (limit - 1) by lia. apply causes_length.
Qed.

(** X1. When the event has exception values, and the hint holds an instance
    of Error, the handler puts the records of the walk in front of the
    values the event had, in that order, leaves every other property of
    the event alone, and adds at most [limit - 1] records. *)
Theorem handler_prepends parser key limit h event hint ex vals hnt original :
  exception event = Some ex -> values ex = Some vals ->
  hint = Some hnt -> asError h (originalException hnt) = Some original ->
  exists linked,
    linked = _walkErrorTree parser limit h original key [] /\
    _handler parser key limit h event hint
    = {| exception := Some {| values := Some (linked ++ vals) |};
         other := other event |} /\
    (length linked <= Z.to_nat (limit - 1))%nat.
Proof.
  intros He Hv Hh Ho. eexists. split; [reflexivity |]. split.
  - unfold _handler. now rewrite He, Hv, Hh, Ho.
  - apply walk_length_bound.
Qed.

Lemma handler_prepends_witness :
  exists linked,
    linked = _walkErrorTree noFrames 5 sampleStore rootError "cause" [] /\
    _handler noFrames "cause" 5 sampleStore capturedEvent (Some rootHint)
    = {| exception :=
           Some {| values := Some (linked ++ [exceptionFromError noFrames rootError]) |};
         other := other capturedEvent |} /\
    (length linked <= Z.to_nat (5 - 1))%nat.
Proof.
  apply (handler_prepends noFrames "cause" 5 sampleStore capturedEvent (Some rootHint)
           {| values := Some [exceptionFromError noFrames rootError] |}
           [exceptionFromError noFrames rootError] rootHint rootError);
    reflexivity.
Defined.

(** X2. When the original error has no instance of Error under the key, the
    handler returns the event as it got it, although all its preconditions
    hold. *)
Theorem handler_without_cause parser key limit h event hint ex vals hnt original :
  exception event = Some ex -> values ex = Some vals ->
  hint = Some hnt -> asError h (originalException hnt) = Some original ->
  asError h (getProp original key) = None ->
  _handler parser key limit h event hint = event.
Proof.
  intros He Hv Hh Ho Hn. unfold _handler. rewrite He, Hv, Hh, Ho.
  rewrite walk_causes, causes_no_link by assumption. simpl.
  destruct event as [e o]. simpl in *. subst e.
  destruct ex as [v]. simpl in *. subst v. reflexivity.
Qed.

Lemma handler_without_cause_witness :
  _handler noFrames "cause" 5 sampleStore leafEvent (Some leafHint) = leafEvent.
Proof.
  apply (handler_without_cause noFrames "cause" 5 sampleStore leafEvent (Some leafHint)
           {| values := Some [exceptionFromError noFrames leafError] |}
           [exceptionFromError noFrames leafError] leafHint leafError);
    reflexivity.
Defined.

(** X3. The handler is not idempotent: run again on its own result with the
    same hint, it puts the records of the walk in front a second time. *)
Theorem handler_twice parser key limit h event hint ex vals hnt original :
  exception event = Some ex -> values ex = Some vals ->
  hint = Some hnt -> asError h (originalException hnt) = Some original ->
  let linked := _walkErrorTree parser limit h original key [] in
  _handler parser key limit h (_handler parser key limit h event hint) hint
  = {| exception := Some {| values := Some (linked ++ linked ++ vals) |};
       other := other event |}.
Proof.
  intros He Hv Hh Ho linked.
  rewrite (handler_links _ _ _ _ _ _ _ _ _ _ He Hv Hh Ho).
  unfold _handler. simpl. rewrite Hh, Ho. reflexivity.
Qed.

Lemma handler_twice_witness :
  let linked := _walkErrorTree noFrames 5 sampleStore rootError "cause" [] in
  _handler noFrames "cause" 5 sampleStore
    (_handler noFrames "cause" 5 sampleStore capturedEvent (Some rootHint))
    (Some rootHint)
  = {| exception :=
         Some {| values :=
           Some (linked ++ linked ++ [exceptionFromError noFrames rootError]) |};
       other := other capturedEvent |}.
Proof.
  apply (handler_twice noFrames "cause" 5 sampleStore capturedEvent (Some rootHint)
           {| values := Some [exceptionFromError noFrames rootError] |}
           [exceptionFromError noFrames rootError] rootHint rootError);
    reflexivity.
Defined.

(** *** The walk and its accumulator *)

Lemma causes_more h key n n' error :
  (n <= n')%nat ->
  exists deeper, causes h key n' error = causes h key n error ++ deeper.
Proof.
  revert n' error. induction n as [| n IH]; intros n' error Hle.
  - eexists. reflexivity.
  - destruct n' as [| n']; [lia |]. simpl.
    destruct (asError h (getProp error key)) as [cause |]; [| exists []; reflexivity].
    destruct (IH n' cause ltac:(lia)) as [deeper ->].
    exists deeper. reflexivity.
Qed.

(** X4. On every store, the walk returns the stack it was given with new
    records in front of it: nothing of the stack is dropped or reordered,
    and at most max(0, limit - 1 - stack.length) records are added. *)
Theorem walk_keeps_stack parser limit h error key stack :
  exists added,
    _walkErrorTree parser limit h error key stack = added ++ stack /\
    (length added <= Z.to_nat (limit - 1 - Z.of_nat (length stack)))%nat.
Proof.
  rewrite walk_causes. eexists. split; [reflexivity |].
  rewrite length_reverse, length_map. apply causes_length.
Qed.

(** X5. Raising the limit only adds records of deeper causes in front: on
    every store the result under a limit is a suffix of the result under
    any greater limit. *)
Theorem walk_limit_monotone parser limit limit' h error key stack :
  limit <= limit' ->
  exists deeper,
    _walkErrorTree parser limit' h error key stack
    = deeper ++ _walkErrorTree parser limit h error key stack.
Proof.
  intros Hle. rewrite !walk_causes.
  destruct (causes_more h key (room limit (length stack)) (room limit' (length stack))
              error) as [deeper ->]; [unfold room; lia |].
  rewrite map_app, reverse_app, <- app_assoc. eexists. reflexivity.
Qed.

Lemma walk_limit_monotone_witness :
  exists deeper,
    _walkErrorTree noFrames 5 sampleStore rootError "cause" []
    = deeper ++ _walkErrorTree noFrames 2 sampleStore rootError "cause" [].
Proof.
  apply (walk_limit_monotone noFrames 2 5 sampleStore rootError "cause" []). lia.
Defined.

(** *** Native and JavaScript records *)

(** X6. The first stack property decides the builder: an error that has
    [stackElements] gets the Java frames, one for each element in order,
    whatever else it carries; and every native record takes name and
    message as they are, without the placeholders of JavaScript errors
    (an empty or missing message stays empty or missing). *)
Theorem native_record_verbatim parser linkedError :
  isNative linkedError = true ->
  type (linkedException parser linkedError) = name linkedError /\
  value (linkedException parser linkedError) = message linkedError /\
  (forall els, stackElements linkedError = Some els ->
     stacktrace (linkedException parser linkedError)
     = Some {| frames := map javaFrame els |} /\
     forall i el, els !! i = Some el ->
       map javaFrame els !! i
       = Some {| platform := Some "java"; module := Some (className el);
                 filename := Some (fileName el); lineno := Some (lineNumber el);
                 function := Some (methodName el);
                 package := None; instruction_addr := None |}).
Proof.
  unfold isNative, linkedException. intros Hn.
  destruct (stackElements linkedError) as [els |] eqn:E1.
  - split; [reflexivity |]. split; [reflexivity |].
    intros els' [= <-]. split; [reflexivity |].
    intros i el Hi.
    change (map javaFrame els) with (javaFrame <$> els).
    rewrite list_lookup_fmap, Hi. reflexivity.
  - destruct (stackSymbols linkedError) as [syms |] eqn:E2.
    + split; [reflexivity |]. split; [reflexivity |]. intros els' [=].
    + destruct (stackReturnAddresses linkedError) as [addrs |] eqn:E3; [| discriminate].
      split; [reflexivity |]. split; [reflexivity |]. intros els' [=].
Qed.

Lemma native_record_verbatim_witness :
  type (linkedException noFrames mixedError) = name mixedError /\
  value (linkedException noFrames mixedError) = message mixedError /\
  (forall els, stackElements mixedError = Some els ->
     stacktrace (linkedException noFrames mixedError)
     = Some {| frames := map javaFrame els |} /\
     forall i el, els !! i = Some el ->
       map javaFrame els !! i
       = Some {| platform := Some "java"; module := Some (className el);
                 filename := Some (fileName el); lineno := Some (lineNumber el);
                 function := Some (methodName el);
                 package := None; instruction_addr := None |}).
Proof. apply (native_record_verbatim noFrames mixedError). reflexivity. Defined.

Lemma extractMessage_empty_iff ex :
  extractMessage ex = MsgString "" <-> message ex = MsgObject (Some (VString "")).
Proof.
  unfold extractMessage. split.
  - destruct (message ex) as [| s | [[| s | n | l |] |]]; simpl; try discriminate.
    + destruct (String.eqb_spec s ""); [discriminate | congruence].
    + intros [= ->]. reflexivity.
  - intros ->. reflexivity.
Qed.

Lemma extractMessage_defined ex : extractMessage ex <> MsgUndefined.
Proof.
  unfold extractMessage.
  destruct (message ex) as [| s | [[| s | n | l |] |]]; simpl; try discriminate.
  destruct (String.eqb s ""); discriminate.
Qed.

(** X7. The value of the record of a JavaScript error is never undefined,
    and it is the empty string in one case only: the error has a name and
    its message is an object whose [error.message] is the empty string. *)
Theorem error_value_empty_iff parser ex :
  value (exceptionFromError parser ex) <> MsgUndefined /\
  (value (exceptionFromError parser ex) = MsgString "" <->
   (exists n, name ex = Some n) /\ message ex = MsgObject (Some (VString ""))).
Proof.
  rewrite exceptionFromError_value. split.
  - destruct (name ex); [apply extractMessage_defined |].
    destruct (isEmptyString (extractMessage ex)); [discriminate |].
    apply extractMessage_defined.
  - destruct (name ex) as [n |].
    + rewrite extractMessage_empty_iff. split; [eauto | tauto].
    + split.
      * destruct (isEmptyString (extractMessage ex)) eqn:E; [discriminate |].
        intros H. rewrite H in E. discriminate.
      * intros [[n [=]] _].
Qed.

(** X8. Name and message of the record do not depend on the stack parser,
    and a parser that throws is absorbed: the record is the one that a
    parser finding no frame gives, without a stack trace. *)
Theorem throwing_parser_absorbed parser ex :
  (forall s n, parser s n = None) ->
  exceptionFromError parser ex = exceptionFromError noFrames ex /\
  stacktrace (exceptionFromError parser ex) = None /\
  (forall parser', type (exceptionFromError parser' ex) = type (exceptionFromError parser ex)
                   /\ value (exceptionFromError parser' ex)
                      = value (exceptionFromError parser ex)).
Proof.
  intros Hp.
  assert (Hf : parseStackFrames parser ex = []).
  { unfold parseStackFrames. now rewrite Hp. }
  split; [| split].
  - unfold exceptionFromError. cbv zeta. rewrite Hf. reflexivity.
  - rewrite exceptionFromError_stacktrace, Hf. reflexivity.
  - intros parser'. rewrite !exceptionFromError_type, !exceptionFromError_value.
    split; reflexivity.
Qed.

Lemma throwing_parser_absorbed_witness :
  exceptionFromError throwingParser reactError = exceptionFromError noFrames reactError /\
  stacktrace (exceptionFromError throwingParser reactError) = None /\
  (forall parser',
     type (exceptionFromError parser' reactError)
     = type (exceptionFromError throwingParser reactError)
     /\ value (exceptionFromError parser' reactError)
        = value (exceptionFromError throwingParser reactError)).
Proof.
  apply (throwing_parser_absorbed throwingParser reactError). reflexivity.
Defined.

(** *** The number of frames to pop *)

Lemma prefixNoCase_split pat s :
  prefixNoCase pat s = true ->
  exists lit x, s = lit +:+ x /\ Js.lowerCase lit = pat /\
                String.length lit = String.length pat.
Proof.
  revert s. induction pat as [| p pat IH]; intros s H.
  - exists EmptyString, s. repeat split.
  - destruct s as [| c s']; [discriminate |]. simpl in H.
    apply andb_true_iff in H as [Hc Hs].
    apply Ascii.eqb_eq in Hc. destruct (IH s' Hs) as (lit & x & -> & Hl & Hn).
    exists (String c lit), x. simpl. rewrite Hl, Hn, Hc. repeat split.
Qed.

Lemma prefixNoCase_app lit x : prefixNoCase (Js.lowerCase lit) (lit +:+ x) = true.
Proof.
  induction lit as [| c lit IH]; simpl; [reflexivity |].
  rewrite Ascii.eqb_refl. exact IH.
Qed.

Lemma drop_app lit x : Js.drop (String.length lit) (lit +:+ x) = x.
Proof. induction lit as [| c lit IH]; simpl; [now destruct x | exact IH]. Qed.

Lemma length_lowerCase s : String.length (Js.lowerCase s) = String.length s.
Proof. induction s as [| c s IH]; simpl; [reflexivity | now rewrite IH]. Qed.

Lemma skipDigits_split s :
  exists ds, s = ds +:+ skipDigits s /\ Js.allDigits ds = true.
Proof.
  induction s as [| c s (ds & IH & Hd)].
  - exists EmptyString. split; reflexivity.
  - simpl. destruct (Js.isDigit c) eqn:Hc.
    + exists (String c ds).
      split; [change (String c s = String c (ds +:+ skipDigits s)); f_equal; exact IH |].
      simpl. rewrite Hc, Hd. reflexivity.
    + exists EmptyString. split; reflexivity.
Qed.

Lemma skipDigits_app ds c r :
  Js.allDigits ds = true -> Js.isDigit c = false ->
  skipDigits (ds +:+ String c r) = String c r.
Proof.
  intros Hd Hc. induction ds as [| d ds IH]; simpl.
  - now rewrite Hc.
  - simpl in Hd. apply andb_true_iff in Hd as [Hd1 Hd2]. rewrite Hd1. now apply IH.
Qed.

Lemma reactMinifiedHere_iff s :
  reactMinifiedHere s = true <->
  exists lit d ds rest,
    s = lit +:+ String d ds +:+ String ";" rest /\
    Js.lowerCase lit = reactMinifiedLiteral /\
    Js.isDigit d = true /\ Js.allDigits ds = true.
Proof.
  unfold reactMinifiedHere. split.
  - intros H. apply andb_true_iff in H as [Hp Hr].
    destruct (prefixNoCase_split _ _ Hp) as (lit & x & -> & Hl & Hn).
    rewrite <- Hn, drop_app in Hr.
    destruct x as [| d x]; [discriminate |].
    apply andb_true_iff in Hr as [Hd Hr].
    destruct (skipDigits_split x) as (ds & Hx & Hds).
    destruct (skipDigits x) as [| e r]; [discriminate |].
    apply Ascii.eqb_eq in Hr. subst e.
    exists lit, d, ds, r. rewrite Hx. repeat split; assumption.
  - intros (lit & d & ds & rest & -> & Hl & Hd & Hds).
    rewrite <- Hl, prefixNoCase_app, length_lowerCase, drop_app. simpl.
    rewrite Hd, skipDigits_app by (assumption || reflexivity). reflexivity.
Qed.

Lemma reactMinifiedRegexp_test_iff s :
  reactMinifiedRegexp_test s = true <-> reactMinifiedShape s.
Proof.
  unfold reactMinifiedShape. induction s as [| c s IH].
  - split; [discriminate |].
    intros ([| ? ?] & [| ? ?] & d & ds & rest & E & _); discriminate E.
  - cbn [reactMinifiedRegexp_test]. rewrite orb_true_iff, IH, reactMinifiedHere_iff.
    split.
    + intros [(lit & d & ds & rest & E & H) | (pre & lit & d & ds & rest & E & H)].
      * exists EmptyString, lit, d, ds, rest. split; [exact E | exact H].
      * exists (String c pre), lit, d, ds, rest. simpl. rewrite E.
        split; [reflexivity | exact H].
    + intros ([| c' pre] & lit & d & ds & rest & E & H).
      * left. exists lit, d, ds, rest. split; [exact E | exact H].
      * right. simpl in E. injection E as -> E.
        exists pre, lit, d, ds, rest. split; [exact E | exact H].
Qed.

(** X9. The number of frames to pop: a numeric [framesToPop] is taken as it
    is; without one, the answer is 1 exactly when the message is a string
    that holds ["Minified React error #"] in any letter case, one digit or
    more and a semicolon, and 0 otherwise, also when the message is not a
    string. *)
Theorem popSize_cases ex :
  (forall n, framesToPop ex = Some n -> getPopSize ex = n) /\
  (framesToPop ex = None ->
     (getPopSize ex = 0 \/ getPopSize ex = 1) /\
     (forall s, message ex = MsgString s ->
        (getPopSize ex = 1 <-> reactMinifiedShape s)) /\
     ((forall s, message ex <> MsgString s) -> getPopSize ex = 0)).
Proof.
  unfold getPopSize. split.
  - intros n ->. reflexivity.
  - intros ->. split; [| split].
    + destruct (reactMinifiedRegexp_test _); [right | left]; reflexivity.
    + intros s ->. simpl. rewrite <- reactMinifiedRegexp_test_iff.
      destruct (reactMinifiedRegexp_test s); split; intros; (reflexivity || discriminate).
    + intros Hn. destruct (message ex) as [| s | o]; try reflexivity.
      exfalso. apply (Hn s). reflexivity.
Qed.

Lemma popSize_cases_witness :
  getPopSize reactError = 1 <->
  reactMinifiedShape "Uncaught: MINIFIED React error #31; visit the docs".
Proof.
  apply (proj1 (proj2 (proj2 (popSize_cases reactError) eq_refl))). reflexivity.
Defined.

(** The sample: upper-case letters are accepted, one frame is popped. *)
Example popSize_react : getPopSize reactError = 1.
Proof. reflexivity. Qed.

(** *** Return addresses *)

Lemma length_repeatChar c n : String.length (Js.repeatChar c n) = n.
Proof. induction n as [| n IH]; simpl; [reflexivity | now rewrite IH]. Qed.

Lemma length_append (a b : string) :
  String.length (a +:+ b) = (String.length a + String.length b)%nat.
Proof. induction a as [| c a IH]; simpl; [reflexivity | now rewrite IH]. Qed.

Lemma length_padStart s width c :
  String.length (Js.padStart s width c) = Nat.max width (String.length s).
Proof. unfold Js.padStart. rewrite length_append, length_repeatChar. lia. Qed.

Lemma uint_of_padded k s d :
  NilEmpty.uint_of_string s = Some d ->
  NilEmpty.uint_of_string (Js.repeatChar "0" k +:+ s)
  = Some (Nat.iter k Hexadecimal.D0 d).
Proof.
  intros H. induction k as [| k IH]; simpl; [exact H |].
  rewrite IH. reflexivity.
Qed.

Lemma of_hex_iter_D0 k d :
  N.of_hex_uint (Nat.iter k Hexadecimal.D0 d) = N.of_hex_uint d.
Proof.
  rewrite <- HexadecimalN.Unsigned.of_uint_norm, HexadecimalFacts.unorm_iter_D0.
  apply HexadecimalN.Unsigned.of_uint_norm.
Qed.

Lemma uint_of_shown d :
  exists d', NilEmpty.uint_of_string (NilZero.string_of_uint d) = Some d' /\
             N.of_hex_uint d' = N.of_hex_uint d.
Proof.
  destruct d; try (eexists; split; [apply NilEmpty.usu | reflexivity]).
  exists (Hexadecimal.D0 Hexadecimal.Nil). split; reflexivity.
Qed.

(** X10. The address of a frame built from a return address n >= 0 is a
    string of lower-case hexadecimal digits of length max(16, digits of n),
    so of sixteen characters at least, and reading it back as a
    hexadecimal number gives n again: padding loses nothing. *)
Theorem return_address_round_trip n :
  0 <= n ->
  exists addr,
    instruction_addr (appleAddressFrame n) = Some addr /\
    Js.parseHex addr = Some n /\
    String.length addr = Nat.max 16 (String.length (Js.toString16 n)) /\
    (16 <= String.length addr)%nat.
Proof.
  intros Hn. eexists. split; [reflexivity |].
  split; [| split; [apply length_padStart | rewrite length_padStart; lia]].
  unfold Js.padStart, Js.toString16, Js.parseHex.
  destruct (Z.ltb_spec n 0) as [? | _]; [lia |].
  destruct (uint_of_shown (N.to_hex_uint (Z.to_N n))) as (d' & Hd & Hv).
  rewrite (uint_of_padded _ _ _ Hd). simpl.
  rewrite of_hex_iter_D0, Hv, HexadecimalN.Unsigned.of_to, Z2N.id by lia.
  reflexivity.
Qed.

Lemma return_address_round_trip_witness :
  exists addr,
    instruction_addr (appleAddressFrame 4331951736) = Some addr /\
    Js.parseHex addr = Some 4331951736 /\
    String.length addr = Nat.max 16 (String.length (Js.toString16 4331951736)) /\
    (16 <= String.length addr)%nat.
Proof. apply (return_address_round_trip 4331951736). lia. Defined.

End NativeLinkedErrorsMore.

(** * Further properties of the background spans *)

Module BackgroundSpansMore.

Import BackgroundSpans BackgroundSpansFacts.
Local Open Scope list_scope.

(** *** What the wrapper removes *)

Lemma pruneTrailing_cases spans :
  pruneTrailing spans = spans \/
  exists i s, findTrailing spans = Some (i, s) /\ spans !! i = Some s /\
              op s = Some BACKGROUND_SPAN_OP /\
              pruneTrailing spans = delete i spans.
Proof.
  unfold pruneTrailing. destruct (findTrailing spans) as [[i s] |] eqn:Hf; [| now left].
  case_decide; [| now left]. right. exists i, s.
  split; [reflexivity |]. split; [apply findTrailing_lookup, Hf |].
  split; [assumption | reflexivity].
Qed.

(** X11. The wrapper removes one span at most, and only a span whose
    operation is ["app.background"]: either the child list stays as it is,
    or it loses exactly one background span; all other spans stay, in
    their order. *)
Theorem prune_only_background spans :
  (pruneTrailing spans = spans \/
   exists i s, spans !! i = Some s /\ op s = Some BACKGROUND_SPAN_OP /\
               pruneTrailing spans = take i spans ++ drop (S i) spans /\
               S (length (pruneTrailing spans)) = length spans) /\
  filter (fun s => op s <> Some BACKGROUND_SPAN_OP) (pruneTrailing spans)
  = filter (fun s => op s <> Some BACKGROUND_SPAN_OP) spans.
Proof.
  destruct (pruneTrailing_cases spans) as [-> | (i & s & _ & Hi & Hop & ->)].
  - split; [now left | reflexivity].
  - split.
    + right. exists i, s. split; [exact Hi |]. split; [exact Hop |].
      split; [apply delete_take_drop |].
      pose proof (lookup_lt_Some _ _ _ Hi). rewrite length_delete by eauto. lia.
    + rewrite delete_take_drop.
      rewrite <- (take_drop_middle spans i s Hi) at 3.
      rewrite !filter_app, filter_cons_False by (intros H; apply H; exact Hop).
      reflexivity.
Qed.

(** X12. When the last span of the list has an end timestamp, a background
    span that ends strictly after every other ended span is the one the
    wrapper removes. *)
Theorem prune_latest_background spans lastSpan i s m :
  last spans = Some lastSpan -> is_Some (endTimestamp lastSpan) ->
  spans !! i = Some s -> op s = Some BACKGROUND_SPAN_OP ->
  endTimestamp s = Some m ->
  (forall j s' t', j <> i -> spans !! j = Some s' -> endTimestamp s' = Some t' ->
     (t' < m)%Z) ->
  pruneTrailing spans = delete i spans.
Proof.
  intros Hlast Hended Hi Hop Hm Hstrict.
  destruct (findTrailing_cases spans)
    as [[-> _] | [(l & x & -> & Hx & _) | (l & x & i' & s' & m' & -> & _ & Hf & Hl)]].
  - discriminate.
  - rewrite last_snoc in Hlast. injection Hlast as <-.
    rewrite Hx in Hended. destruct Hended; discriminate.
  - destruct Hl as (Hi' & Hm' & _ & Hall).
    assert (i' = i) as ->.
    { destruct (decide (i' = i)) as [| Hne]; [assumption |].
      pose proof (Hstrict i' s' m' Hne Hi' Hm').
      destruct (Hall i s m ltac:(lia) Hi Hm). lia. }
    assert (s' = s) as -> by congruence.
    unfold pruneTrailing. rewrite Hf. case_decide; [reflexivity | contradiction].
Qed.

Lemma prune_latest_background_witness :
  pruneTrailing sampleSpans = delete 1%nat sampleSpans.
Proof.
  apply (prune_latest_background sampleSpans (endedSpan BACKGROUND_SPAN_OP 4 9)
           1%nat (endedSpan BACKGROUND_SPAN_OP 4 9) 9);
    try reflexivity; [eexists; reflexivity |].
  intros j s' t' Hne Hs Ht.
  destruct j as [| [| j]]; [| contradiction | discriminate].
  injection Hs as <-. injection Ht as <-. lia.
Defined.

(** X13. When the last span of the list is still open, the wrapper looks at
    that span only: it removes it if it is a background span, and leaves
    the list alone otherwise, also when a background span ended before. *)
Theorem prune_open_last spans lastSpan :
  last spans = Some lastSpan -> endTimestamp lastSpan = None ->
  pruneTrailing spans
  = if decide (op lastSpan = Some BACKGROUND_SPAN_OP)
    then take (length spans - 1) spans
    else spans.
Proof.
  intros Hlast Hopen.
  destruct (findTrailing_cases spans)
    as [[-> _] | [(l & x & -> & Hx & Hf) | (l & x & i & s & m & -> & Hx & _)]].
  - discriminate.
  - rewrite last_snoc in Hlast. injection Hlast as <-.
    unfold pruneTrailing. rewrite Hf. case_decide; [| reflexivity].
    rewrite delete_take_drop, length_app. simpl length.
    replace (length l + 1 - 1)%nat with (length l) by lia.
    rewrite drop_ge by (rewrite length_app; simpl; lia).
    apply app_nil_r.
  - rewrite last_snoc in Hlast. injection Hlast as <-.
    rewrite Hopen in Hx. destruct Hx; discriminate.
Qed.

Lemma prune_open_last_witness :
  pruneTrailing openLast
  = if decide (op (openSpan "ui.load" 2) = Some BACKGROUND_SPAN_OP)
    then take (length openLast - 1) openLast
    else openLast.
Proof.
  apply (prune_open_last openLast (openSpan "ui.load" 2)); reflexivity.
Defined.

(** *** The [finish] slot *)

Lemma handedOn_again tx a b : handedOn (handedOn tx a) b = handedOn tx b.
Proof. reflexivity. Qed.



(** Two wrappers remove both background spans of the sample. *)
Example nested_wrappers_sample :
  callFinish recordingFinish (wrappedTimes 2) None
    {| spanId := "c3"; isSpanClass := true;
       spanRecorder := Some {| spans := doubleTrailing |};
       __backgroundSpan := true; finish := wrappedTimes 2 |}
  = {| effect :=
         {| spanId := "c3"; isSpanClass := true;
            spanRecorder := Some {| spans := [endedSpan "http.client" 1 3] |};
            __backgroundSpan := false; finish := wrappedTimes 2 |};
       returned := None |}.
Proof. reflexivity. Qed.

(** X15. A transaction that is not an instance of the span class, or has no
    recorder, goes to the method of the SDK untouched through any number
    of wrappers; the mark is not deleted on this way. *)
Theorem wrappers_bypassed {Effect}
    (sdkFinish : option Z -> Transaction -> Finished Effect) slot finishedAt tx :
  isSpanClass tx = false \/ spanRecorder tx = None ->
  callFinish sdkFinish slot finishedAt tx = sdkFinish finishedAt tx.
Proof.
  intros H. induction slot as [| slot IH]; [reflexivity |].
  simpl. rewrite beforeTransactionFinish_bypass by assumption. exact IH.
Qed.

Lemma wrappers_bypassed_witness :
  callFinish recordingFinish (wrappedTimes 3) (Some 12%Z)
    {| spanId := "d4"; isSpanClass := true; spanRecorder := None;
       __backgroundSpan := true; finish := wrappedTimes 3 |}
  = recordingFinish (Some 12%Z)
      {| spanId := "d4"; isSpanClass := true; spanRecorder := None;
         __backgroundSpan := true; finish := wrappedTimes 3 |}.
Proof.
  apply (wrappers_bypassed recordingFinish (wrappedTimes 3) (Some 12%Z)).
  right. reflexivity.
Defined.

(** *** Runs of the listener *)

Section RunFacts.

Variable startFinishedChild : Z -> Z -> string -> string -> Transaction -> Transaction.

Lemma runEvents_app events events' self tx :
  runEvents startFinishedChild (events ++ events') self tx
  = let '(self', tx') := runEvents startFinishedChild events self tx in
    runEvents startFinishedChild events' self' tx'.
Proof.
  revert self tx. induction events as [| [now state] events IH]; intros self tx.
  - reflexivity.
  - simpl. destruct (onChange startFinishedChild now state self tx) as [self' tx'].
    apply IH.
Qed.

(** While a start is pending, events other than ["active"] change nothing. *)
Lemma runEvents_quiet quiet self t tx :
  _currentBackgroundStartTimestamp self = Some t -> t <> 0%Z ->
  Forall (fun e => snd e <> active) quiet ->
  runEvents startFinishedChild quiet self tx = (self, tx).
Proof.
  intros Hs Ht Hq. induction Hq as [| [now state] quiet Hna Hq IH]; [reflexivity |].
  simpl. rewrite (onChange_pending startFinishedChild self t now state tx Hs Ht Hna).
  exact IH.
Qed.

(** X16. From the initial state, a ["background"] event at [t0], then any
    events other than ["active"] (further ["background"] events among
    them), then ["active"] at [t1]: one background span is created, from
    [t0] to [t1], on the transaction of the scope, and the start is unset
    again; without a transaction the interval is dropped all the same. *)
Theorem background_interval_span t0 t1 quiet tx :
  t0 <> 0%Z ->
  Forall (fun e => snd e <> active) quiet ->
  runEvents startFinishedChild ((t0, background) :: quiet ++ [(t1, active)])
    {| _currentBackgroundStartTimestamp := None |} tx
  = ({| _currentBackgroundStartTimestamp := None |},
     _createBackgroundSpan startFinishedChild t0 t1 tx) /\
  (tx = None -> _createBackgroundSpan startFinishedChild t0 t1 tx = None).
Proof.
  intros Ht Hq. split; [| intros ->; reflexivity].
  cbn [runEvents]. unfold onChange at 1. simpl truthyNumber. cbv iota beta.
  rewrite runEvents_app.
  rewrite (runEvents_quiet quiet {| _currentBackgroundStartTimestamp := Some t0 |}
             t0 tx eq_refl Ht Hq).
  cbn [runEvents].
  rewrite (active_consumes_start startFinishedChild
             {| _currentBackgroundStartTimestamp := Some t0 |} t0 t1 tx eq_refl Ht).
  reflexivity.
Qed.

Hypothesis child_keeps_mark : forall a b d o tx,
  __backgroundSpan (startFinishedChild a b d o tx) = __backgroundSpan tx.
Hypothesis child_keeps_finish : forall a b d o tx,
  finish (startFinishedChild a b d o tx) = finish tx.

Lemma createBackgroundSpan_once slot a b tx :
  wrappedAtMostOnce slot tx ->
  exists tx', _createBackgroundSpan startFinishedChild a b (Some tx) = Some tx' /\
              __backgroundSpan tx' = true /\ finish tx' = Wrapped slot.
Proof.
  intros H. unfold _createBackgroundSpan.
  rewrite child_keeps_mark.
  destruct H as [[Hm Hf] | [Hm Hf]]; rewrite Hm.
  - eexists. split; [reflexivity |]. simpl.
    rewrite child_keeps_finish, Hf. split; reflexivity.
  - eexists. split; [reflexivity |].
    rewrite child_keeps_mark, child_keeps_finish. split; assumption.
Qed.

Lemma onChange_once slot now state self tx :
  wrappedAtMostOnce slot tx ->
  exists tx', snd (onChange startFinishedChild now state self (Some tx)) = Some tx' /\
              wrappedAtMostOnce slot tx'.
Proof.
  intros H. unfold onChange.
  destruct state, (truthyNumber (_currentBackgroundStartTimestamp self)) as [start |];
    cbn [snd]; try (exists tx; split; [reflexivity | exact H]).
  destruct (createBackgroundSpan_once slot start now tx H) as (tx' & -> & Hm & Hf).
  exists tx'. split; [reflexivity |]. right. split; assumption.
Qed.

(** X17. As long as the SDK's child spans leave the mark and the [finish]
    slot of the transaction alone, any run of change events over a
    transaction that was not marked wraps its [finish] at most once: after
    the run the slot either holds what it held, with no mark, or one
    wrapper around it, with the mark set. *)
Theorem finish_wrapped_at_most_once events self tx :
  __backgroundSpan tx = false ->
  exists tx',
    snd (runEvents startFinishedChild events self (Some tx)) = Some tx' /\
    wrappedAtMostOnce (finish tx) tx'.
Proof.
  intros Hm.
  assert (G : forall slot tx0 self0, wrappedAtMostOnce slot tx0 ->
            exists tx', snd (runEvents startFinishedChild events self0 (Some tx0)) = Some tx'
                        /\ wrappedAtMostOnce slot tx').
  { clear tx self Hm.
    induction events as [| [now state] events IH]; intros slot tx0 self0 H0.
    - exists tx0. split; [reflexivity | exact H0].
    - simpl.
      destruct (onChange_once slot now state self0 tx0 H0) as (tx1 & E & H1).
      destruct (onChange startFinishedChild now state self0 (Some tx0)) as [self1 otx].
      simpl in E. subst otx. apply IH. exact H1. }
  apply G. left. split; [exact Hm | reflexivity].
Qed.

(** X19. The wrapper deletes the mark but stays in the [finish] slot: on a
    transaction that went through it, the next background span sets the
    mark again and puts one more wrapper around whatever the slot holds,
    the earlier wrapper included. *)
Theorem rewrapped_after_finish a b tx spans' :
  exists tx',
    _createBackgroundSpan startFinishedChild a b (Some (handedOn tx spans')) = Some tx' /\
    __backgroundSpan tx' = true /\
    finish tx' = Wrapped (finish tx).
Proof.
  apply createBackgroundSpan_once. left. split; reflexivity.
Qed.

End RunFacts.

Lemma background_interval_span_witness :
  runEvents addFinishedChild
    ((100%Z, background) :: [(130%Z, inactive); (150%Z, background)] ++ [(250%Z, active)])
    {| _currentBackgroundStartTimestamp := None |} (Some freshTransaction)
  = ({| _currentBackgroundStartTimestamp := None |},
     _createBackgroundSpan addFinishedChild 100 250 (Some freshTransaction)) /\
  (Some freshTransaction = None ->
   _createBackgroundSpan addFinishedChild 100 250 (Some freshTransaction) = None).
Proof.
  apply (background_interval_span addFinishedChild 100 250
           [(130%Z, inactive); (150%Z, background)] (Some freshTransaction)).
  - lia.
  - repeat constructor; discriminate.
Defined.

Lemma rewrapped_after_finish_witness :
  exists tx',
    _createBackgroundSpan addFinishedChild 20 30
      (Some (handedOn sampleTransaction (pruneTrailing sampleSpans))) = Some tx' /\
    __backgroundSpan tx' = true /\
    finish tx' = Wrapped (finish sampleTransaction).
Proof.
  apply (rewrapped_after_finish addFinishedChild
           (fun _ _ _ _ _ => eq_refl) (fun _ _ _ _ _ => eq_refl)
           20 30 sampleTransaction (pruneTrailing sampleSpans)).
Defined.

Lemma finish_wrapped_at_most_once_witness :
  exists tx',
    snd (runEvents addFinishedChild
           [(1%Z, background); (2%Z, active); (3%Z, background); (4%Z, active)]
           {| _currentBackgroundStartTimestamp := None |} (Some freshTransaction))
    = Some tx' /\
    wrappedAtMostOnce (finish freshTransaction) tx'.
Proof.
  apply (finish_wrapped_at_most_once addFinishedChild
           (fun _ _ _ _ _ => eq_refl) (fun _ _ _ _ _ => eq_refl)
           [(1%Z, background); (2%Z, active); (3%Z, background); (4%Z, active)]
           {| _currentBackgroundStartTimestamp := None |} freshTransaction).
  reflexivity.
Defined.

(** Two background periods on the sample: two spans were added after the
    request, and one wrapper is in the slot. *)
Example two_periods_sample :
  snd (runEvents addFinishedChild
         [(1%Z, background); (2%Z, active); (3%Z, background); (4%Z, active)]
         {| _currentBackgroundStartTimestamp := None |} (Some freshTransaction))
  = Some {| spanId := "b2"; isSpanClass := true;
            spanRecorder := Some {| spans :=
              [ endedSpan "http.client" 1 3;
                {| op := Some BACKGROUND_SPAN_OP; description := Some "App in background";
                   startTimestamp := 1; endTimestamp := Some 2%Z |};
                {| op := Some BACKGROUND_SPAN_OP; description := Some "App in background";
                   startTimestamp := 3; endTimestamp := Some 4%Z |} ] |};
            __backgroundSpan := true; finish := Wrapped Original |}.
Proof. reflexivity. Qed.

End BackgroundSpansMore.

(** * The symbol lines of Objective-C exceptions, in general *)

Module AppleSymbolFacts.

Import NativeLinkedErrors.

Lemma append_assoc (a b c : string) : (a +:+ b) +:+ c = a +:+ (b +:+ c).
Proof.
  induction a as [| x a IH]; [reflexivity |].
  change (String x ((a +:+ b) +:+ c) = String x (a +:+ (b +:+ c))). now rewrite IH.
Qed.

Lemma length_app_string (a b : string) :
  String.length (a +:+ b) = (String.length a + String.length b)%nat.
Proof.
  induction a as [| x a IH]; [reflexivity |].
  change (S (String.length (a +:+ b)) = S (String.length a + String.length b)).
  now rewrite IH.
Qed.

Lemma drop_skip a n s : Js.drop (String.length a + n) (a +:+ s) = Js.drop n s.
Proof. induction a as [| x a IH]; [reflexivity | exact IH]. Qed.

Lemma substring_skip a n m s :
  String.substring (String.length a + n) m (a +:+ s) = String.substring n m s.
Proof. induction a as [| x a IH]; [reflexivity | exact IH]. Qed.

Lemma substring_head b c : String.substring 0 (String.length b) (b +:+ c) = b.
Proof.
  induction b as [| x b IH]; [now destruct c |].
  change (String x (String.substring 0 (String.length b) (b +:+ c)) = String x b).
  now rewrite IH.
Qed.

Lemma trimEnd_blank s : Js.trimEnd (s +:+ " ") = Js.trimEnd s.
Proof.
  induction s as [| x s IH]; [reflexivity |].
  change (Js.trimEnd (String x (s +:+ " ")) = Js.trimEnd (String x s)).
  cbn [Js.trimEnd]. now rewrite IH.
Qed.

Lemma prefix_app_l pat x y :
  (String.length pat <= String.length x)%nat ->
  String.prefix pat (x +:+ y) = String.prefix pat x.
Proof.
  revert x. induction pat as [| p pat IH]; intros x Hl.
  - destruct x; [destruct y |]; reflexivity.
  - destruct x as [| c x]; [simpl in Hl; lia |].
    change (String.prefix (String p pat) (String c (x +:+ y))
            = String.prefix (String p pat) (String c x)).
    cbn [String.prefix]. destruct (ascii_dec p c); [| reflexivity].
    apply IH. simpl in Hl. lia.
Qed.

Lemma prefix_cons p pat c s :
  String.prefix (String p pat) (String c s)
  = if ascii_dec p c then String.prefix pat s else false.
Proof. reflexivity. Qed.

(** One character of the pattern against one character of the string. *)
Ltac step_prefix :=
  rewrite prefix_cons;
  destruct (ascii_dec _ _) as [? | ?]; try reflexivity; try discriminate.

Lemma find_None_cons pat c s :
  Js.find pat (String c s) = None ->
  String.prefix pat (String c s) = false /\ Js.find pat s = None.
Proof.
  cbn [Js.find]. destruct (String.prefix pat (String c s)); [discriminate |].
  destruct (Js.find pat s); [discriminate |]. split; reflexivity.
Qed.

Lemma find_skip pat c s k :
  String.prefix pat (String c s) = false -> Js.find pat s = Some k ->
  Js.find pat (String c s) = Some (S k).
Proof. intros Hp Hf. cbn [Js.find]. now rewrite Hp, Hf. Qed.

(** The first [" 0x"] of a line is the one in front of the address when
    the columns before hold none. *)
Lemma find_before_0x pre t :
  Js.find " 0x" pre = None ->
  Js.find " 0x" (pre +:+ " 0x" +:+ t) = Some (String.length pre).
Proof.
  induction pre as [| c pre IH]; intros Hn; [destruct t; reflexivity |].
  apply find_None_cons in Hn as [Hp Hn].
  change (Js.find " 0x" (String c (pre +:+ " 0x" +:+ t)) = Some (S (String.length pre))).
  apply find_skip; [| apply IH, Hn].
  destruct pre as [| c2 [| c3 pre]].
  - change ("" +:+ " 0x" +:+ t) with (String " " (String "0" (String "x" t))).
    do 2 step_prefix.
  - change (String c2 "" +:+ " 0x" +:+ t)
      with (String c2 (String " " (String "0" (String "x" t)))).
    do 3 step_prefix.
  - change (String c (String c2 (String c3 pre) +:+ " 0x" +:+ t))
      with (String c (String c2 (String c3 pre)) +:+ " 0x" +:+ t).
    rewrite prefix_app_l by (simpl; lia). exact Hp.
Qed.

Lemma find_blank s t :
  Js.hasChar " " s = false ->
  Js.find " " (s +:+ String " " t) = Some (String.length s).
Proof.
  induction s as [| c s IH]; intros Hn; [destruct t; reflexivity |].
  cbn [Js.hasChar] in Hn. apply orb_false_iff in Hn as [Hc Hn].
  change (Js.find " " (String c (s +:+ String " " t)) = Some (S (String.length s))).
  apply find_skip; [| apply IH, Hn].
  rewrite prefix_cons. destruct (ascii_dec " " c) as [<- | _]; [| reflexivity].
  discriminate.
Qed.

(** The first [" + "] after the address is the one in front of the offset
    when the text before it, with a blank behind, holds none. *)
Lemma find_before_plus a off :
  Js.find " + " (a +:+ " ") = None ->
  Js.find " + " (a +:+ " + " +:+ off) = Some (String.length a).
Proof.
  induction a as [| c a IH]; intros Hn; [destruct off; reflexivity |].
  change (Js.find " + " (String c (a +:+ " ")) = None) in Hn.
  apply find_None_cons in Hn as [Hp Hn].
  change (Js.find " + " (String c (a +:+ " + " +:+ off)) = Some (S (String.length a))).
  apply find_skip; [| apply IH, Hn].
  destruct a as [| c2 a].
  - change ("" +:+ " + " +:+ off) with (String " " (String "+" (String " " off))).
    do 2 step_prefix.
  - replace (String c (String c2 a +:+ " + " +:+ off))
      with ((String c (String c2 a) +:+ " ") +:+ ("+ " +:+ off))
      by (rewrite append_assoc; reflexivity).
    rewrite prefix_app_l; [exact Hp |].
    rewrite length_app_string. simpl. lia.
Qed.

Lemma indexOf_at s pat p k :
  (p <= String.length s)%nat ->
  Js.find pat (Js.drop p s) = Some k ->
  Js.indexOf s pat (Z.of_nat p) = Z.of_nat (p + k).
Proof.
  intros Hp Hf. unfold Js.indexOf, Js.clamp, Js.len.
  replace (Z.to_nat (Z.min (Z.max (Z.of_nat p) 0) (Z.of_nat (String.length s))))
    with p by lia.
  now rewrite Hf.
Qed.

Lemma substring_between s a b :
  (a <= b)%nat -> (b <= String.length s)%nat ->
  Js.substring s (Z.of_nat a) (Z.of_nat b) = String.substring a (b - a) s.
Proof.
  intros Hab Hb. unfold Js.substring, Js.clamp, Js.len.
  replace (Z.to_nat (Z.min (Z.max (Z.of_nat a) 0) (Z.of_nat (String.length s))))
    with a by lia.
  replace (Z.to_nat (Z.min (Z.max (Z.of_nat b) 0) (Z.of_nat (String.length s))))
    with b by lia.
  rewrite Nat.min_l, Nat.max_r by lia. reflexivity.
Qed.

Lemma includes_false s pat : Js.includes s pat = false -> Js.find pat s = None.
Proof. unfold Js.includes. destruct (Js.find pat s); [discriminate | reflexivity]. Qed.

(** X18. A symbol line in the layout: five characters, the rest of the
    package column, [" 0x"], the digits of the address, a blank, the
    function, [" + "] and the offset (no [" 0x"] before the address, no
    blank among the digits, no [" + "] in the function with the blanks
    around it). The frame has the function as it stands and the package
    column from its sixth character on without the blanks at its end; its
    address is the digits of the line without the last one. *)
Theorem apple_symbol_line idx pkgcol hexInit hexLast func off :
  String.length idx = 5%nat ->
  Js.includes (idx +:+ pkgcol) " 0x" = false ->
  Js.hasChar " " (hexInit +:+ String hexLast "") = false ->
  Js.includes (" " +:+ func +:+ " ") " + " = false ->
  appleSymbolFrame
    ((idx +:+ pkgcol) +:+ " 0x" +:+ hexInit +:+ String hexLast ""
       +:+ " " +:+ func +:+ " + " +:+ off)
  = {| platform := Some "cocoa"; module := None; filename := None; lineno := None;
       function := Some func;
       package := Some (Js.trimEnd pkgcol);
       instruction_addr := Some hexInit |}.
Proof.
  intros Hidx Hpre Hhex Hfunc.
  apply includes_false in Hpre. apply includes_false in Hfunc.
  set (R := func +:+ " + " +:+ off).
  set (X := hexInit +:+ String hexLast "" +:+ " " +:+ R).
  set (pre := idx +:+ pkgcol) in *.
  set (line := pre +:+ " 0x" +:+ X).
  set (P := String.length pre). set (H := String.length hexInit).
  set (F := String.length func).
  assert (HP : P = (5 + String.length pkgcol)%nat).
  { subst P pre. rewrite length_app_string, Hidx. reflexivity. }
  assert (HX : String.length X = (H + 2 + F + 3 + String.length off)%nat).
  { subst X R H F. rewrite !length_app_string. simpl. lia. }
  assert (Hline : String.length line = (P + 3 + String.length X)%nat).
  { subst line P. rewrite !length_app_string. simpl. lia. }
  assert (E1 : Js.indexOf line " 0x" 0 = Z.of_nat P).
  { change 0 with (Z.of_nat 0). rewrite (indexOf_at line " 0x" 0 P); [f_equal | lia |].
    apply find_before_0x, Hpre. }
  assert (E2 : Js.indexOf line " " (Z.of_nat (P + 1)) = Z.of_nat (P + H + 4)).
  { rewrite (indexOf_at line " " (P + 1) (H + 3)); [f_equal; lia | lia |].
    subst line P. rewrite drop_skip.
    change (Js.drop 1 (" 0x" +:+ X)) with ("0x" +:+ X). subst X.
    replace ("0x" +:+ hexInit +:+ String hexLast "" +:+ " " +:+ R)
      with (("0x" +:+ hexInit +:+ String hexLast "") +:+ String " " R)
      by (rewrite !append_assoc; reflexivity).
    rewrite find_blank.
    - f_equal. rewrite !length_app_string. simpl. subst H. lia.
    - change (Js.hasChar " " (String "0" (String "x" (hexInit +:+ String hexLast ""))) = false).
      cbn [Js.hasChar]. rewrite Hhex. reflexivity. }
  assert (E3 : Js.indexOf line " + " (Z.of_nat (P + H + 4)) = Z.of_nat (P + H + 5 + F)).
  { rewrite (indexOf_at line " + " (P + H + 4) (1 + F)); [f_equal; lia | lia |].
    subst line P. replace (String.length pre + H + 4)%nat
      with (String.length pre + (String.length " 0x" + (H + 1)))%nat by (simpl; lia).
    rewrite !drop_skip. subst X H.
    replace (String.length hexInit + 1)%nat
      with (String.length hexInit + (String.length (String hexLast "") + 0))%nat
      by (simpl; lia).
    rewrite !drop_skip. cbn [Js.drop]. subst R.
    replace (" " +:+ func +:+ " + " +:+ off) with ((" " +:+ func) +:+ " + " +:+ off)
      by (rewrite append_assoc; reflexivity).
    rewrite find_before_plus.
    - f_equal.
    - rewrite append_assoc. exact Hfunc. }
  unfold appleSymbolFrame. fold line. cbv zeta. rewrite E1.
  replace (Z.of_nat P + 1) with (Z.of_nat (P + 1)) by lia. rewrite E2.
  replace (Z.of_nat (P + 1) + 2) with (Z.of_nat (P + 3)) by lia.
  replace (Z.of_nat (P + H + 4) - 1) with (Z.of_nat (P + H + 3)) by lia.
  rewrite E3.
  replace (Z.of_nat (P + H + 4) + 1) with (Z.of_nat (P + H + 5)) by lia.
  change 5 with (Z.of_nat 5).
  rewrite !substring_between by lia.
  replace (P + H + 5 + F - (P + H + 5))%nat with F by lia.
  replace (P + 1 - 5)%nat with (String.length (pkgcol +:+ " "))
    by (rewrite length_app_string; simpl; lia).
  replace (P + H + 3 - (P + 3))%nat with H by lia.
  f_equal; f_equal.
  - (* the function *)
    subst line P.
    replace (String.length pre + H + 5)%nat
      with (String.length pre + (String.length " 0x" + (H + 2)))%nat by (simpl; lia).
    rewrite !substring_skip. subst X H.
    replace (String.length hexInit + 2)%nat
      with (String.length hexInit
            + (String.length (String hexLast "") + (String.length " " + 0)))%nat
      by (simpl; lia).
    rewrite !substring_skip.
    subst R F. apply substring_head.
  - (* the package *)
    subst line pre. rewrite append_assoc.
    replace 5%nat with (String.length idx + 0)%nat by lia.
    rewrite substring_skip.
    replace (pkgcol +:+ " 0x" +:+ X) with ((pkgcol +:+ " ") +:+ "0x" +:+ X)
      by (rewrite append_assoc; reflexivity).
    rewrite substring_head. apply trimEnd_blank.
  - (* the address *)
    subst line P.
    replace (String.length pre + 3)%nat
      with (String.length pre + (String.length " 0x" + 0))%nat by (simpl; lia).
    rewrite !substring_skip.
    subst X H. apply substring_head.
Qed.

Lemma apple_symbol_line_witness :
  appleSymbolFrame
    (("0   M" +:+ "yApp  ") +:+ " 0x" +:+ "000000010234567" +:+ String "8" ""
       +:+ " " +:+ "-[MyApp foo]" +:+ " + " +:+ "40")
  = {| platform := Some "cocoa"; module := None; filename := None; lineno := None;
       function := Some "-[MyApp foo]";
       package := Some (Js.trimEnd "yApp  ");
       instruction_addr := Some "000000010234567" |}.
Proof.
  apply (apple_symbol_line "0   M" "yApp  " "000000010234567" "8" "-[MyApp foo]" "40");
    reflexivity.
Defined.

End AppleSymbolFacts.
